(** * pkgcore: slot-conflict tracker and metadata-cache template

    A shallow embedding of [pkgcore/graph/pigeonholes.py] and
    [pkgcore/cache/__init__.py], with the properties stated for them.

    Python objects are modelled by the capabilities the code uses;
    dictionaries are [gmap]s, lists are [list]s, raised exceptions are the
    [Raise] case of [result]. *)

From Stdlib Require Import ZArith Ascii String DecimalString DecimalPos DecimalZ.
From stdpp Require Import gmap strings list.

Set Default Proof Using "Type".

(** ** Results of calls that may raise *)

Inductive result (E A : Type) : Type :=
| Ok (a : A)
| Raise (e : E).
Arguments Ok {E A} a.
Arguments Raise {E A} e.

(** ** pkgcore.graph.pigeonholes *)

Module PigeonHoles.

(** Exceptions [PigeonHoledSlots] raises: [TypeError] from [add_limiter],
    [KeyError] from [remove_slotting], and the bare [Exception] of the sanity
    check in [fill_slotting]. *)
Inductive exn : Type :=
| TypeError
| KeyError
| SanityException.

(** Outcome of the scanning loop of [fill_slotting]: the loop ran to its end
    with conflict list [l], or left through [return []], or raised. *)
Inductive scan (obj : Type) : Type :=
| ScanEnd (l : list obj)
| ScanReturnEmpty
| ScanRaise.
Arguments ScanEnd {obj} l.
Arguments ScanReturnEmpty {obj}.
Arguments ScanRaise {obj}.

Section tracker.
(** Objects handed to the tracker.  Equality of [obj] is Python identity
    ([is]); [py_eq] is the objects' own [==]. *)
Context {obj K Sl : Type} `{EqDecision obj} `{Countable K} `{EqDecision Sl}.
(** [x.key] *)
Variable key : obj → K.
(** [x.slot] *)
Variable slot : obj → Sl.
(** [isinstance(x, restriction.base)] *)
Variable is_restriction : obj → bool.
(** [x == y] *)
Variable py_eq : obj → obj → bool.
(** [x.match(y)] *)
Variable matches : obj → obj → bool.

(** [self.slot_dict] *)
Abbreviation slot_dict := (gmap K (list obj)).

(** [PigeonHoledSlots()] *)
Definition init : slot_dict := ∅.

(** [d.setdefault(k, v)]: the dictionary afterwards. *)
Definition setdefault (k : K) (v : list obj) (d : slot_dict) : slot_dict :=
  match d !! k with
  | Some _ => d
  | None => <[k := v]> d
  end.

(** The sanity check of [fill_slotting]: some restriction of the bucket
    matches [x]. *)
Definition sanity_violated (bucket : list obj) (x : obj) : bool :=
  existsb (λ y, matches y x) (filter (λ z, is_restriction z = true) bucket).

(** The [for x in ...] loop of [fill_slotting], on the rest [xs] of the
    bucket, with the conflicts [l] found so far. *)
Fixpoint fill_scan (bucket : list obj) (o : obj) (xs l : list obj) : scan obj :=
  match xs with
  | [] => ScanEnd l
  | x :: xs' =>
      if is_restriction x then
        if matches x o then fill_scan bucket o xs' (l ++ [x])
        else fill_scan bucket o xs' l
      else if decide (slot x = slot o) then
        if py_eq x o then
          if sanity_violated bucket x then ScanRaise else ScanReturnEmpty
        else fill_scan bucket o xs' (l ++ [x])
      else fill_scan bucket o xs' l
  end.

(** [fill_slotting(obj)]: the value returned or exception raised, and the
    dictionary afterwards. *)
Definition fill_slotting (o : obj) (d : slot_dict)
  : result exn (list obj) * slot_dict :=
  let k := key o in
  let d1 := setdefault k [] d in
  let bucket := default [] (d1 !! k) in
  match fill_scan bucket o bucket [] with
  | ScanRaise => (Raise SanityException, d1)
  | ScanReturnEmpty => (Ok [], d1)
  | ScanEnd [] => (Ok [], <[k := bucket ++ [o]]> d1)
  | ScanEnd l => (Ok l, d1)
  end.

(** The loop of [add_limiter]. *)
Definition limiter_scan (atom : obj) (bucket : list obj) : list obj :=
  foldl (λ l x, if negb (is_restriction x) && matches atom x
                then l ++ [x] else l) [] bucket.

(** [add_limiter(atom)] *)
Definition add_limiter (atom : obj) (d : slot_dict)
  : result exn (list obj) * slot_dict :=
  if negb (is_restriction atom) then (Raise TypeError, d)
  else
    let k := key atom in
    let d1 := setdefault k [] d in
    let bucket := default [] (d1 !! k) in
    let l := limiter_scan atom bucket in
    (Ok l, <[k := bucket ++ [atom]]> d1).

(** [remove_slotting(obj)] *)
Definition remove_slotting (o : obj) (d : slot_dict)
  : result exn unit * slot_dict :=
  let k := key o in
  match d !! k with
  | None => (Raise KeyError, d)
  | Some bucket =>
      let l := filter (λ x, x ≠ o) bucket in
      if decide (length l = length bucket) then (Raise KeyError, d)
      else match l with
           | [] => (Ok (), delete k d)
           | _ :: _ => (Ok (), <[k := l]> d)
           end
  end.

(** *** Sequences of calls *)

Inductive call : Type :=
| FillSlotting (o : obj)
| AddLimiter (atom : obj)
| RemoveSlotting (o : obj).

(** The dictionary after one call, whatever it returned or raised. *)
Definition after (c : call) (d : slot_dict) : slot_dict :=
  match c with
  | FillSlotting o => (fill_slotting o d).2
  | AddLimiter a => (add_limiter a d).2
  | RemoveSlotting o => (remove_slotting o d).2
  end.

Definition run (cs : list call) (d : slot_dict) : slot_dict :=
  foldl (λ d c, after c d) d cs.

(** *** Properties of a bucket *)

(** The concrete occupants of a bucket. *)
Definition occupants (bucket : list obj) : list obj :=
  filter (λ x, is_restriction x = false) bucket.

(** The blockers of a bucket. *)
Definition blockers (bucket : list obj) : list obj :=
  filter (λ x, is_restriction x = true) bucket.

(** At most one occupant per slot identifier. *)
Definition one_per_slot (bucket : list obj) : Prop :=
  NoDup (slot <$> occupants bucket).

(** No occupant is matched by a blocker of the bucket. *)
Definition unblocked (bucket : list obj) : Prop :=
  ∀ x y, x ∈ occupants bucket → y ∈ blockers bucket → matches y x = false.

(** No occupant is matched by a blocker standing before it in the
    bucket. *)
Definition unblocked_before (bucket : list obj) : Prop :=
  ∀ l1 x l2, bucket = l1 ++ x :: l2 → is_restriction x = false →
    ∀ y, y ∈ blockers l1 → matches y x = false.

Definition buckets (P : list obj → Prop) (d : slot_dict) : Prop :=
  ∀ k bucket, d !! k = Some bucket → P bucket.

(** The invariant as the data model states it. *)
Definition data_invariant (d : slot_dict) : Prop :=
  buckets one_per_slot d ∧ buckets unblocked d.

(** What every reachable dictionary satisfies. *)
Definition ordered_invariant (d : slot_dict) : Prop :=
  buckets one_per_slot d ∧ buckets unblocked_before d.

(** No key maps to an empty sequence. *)
Definition no_empty_bucket (d : slot_dict) : Prop :=
  buckets (λ bucket, bucket ≠ []) d.

(** *** The scanning loops *)

Lemma fill_scan_end_nil bucket o xs l :
  fill_scan bucket o xs l = ScanEnd [] →
  l = [] ∧
  ∀ x, x ∈ xs →
    (is_restriction x = true → matches x o = false) ∧
    (is_restriction x = false → slot x ≠ slot o).
Proof.
  revert l. induction xs as [|x xs IH]; intros l; simpl.
  - intros [= ->]. split; [done|]. intros x Hx. by apply elem_of_nil in Hx.
  - destruct (is_restriction x) eqn:Hr.
    + destruct (matches x o) eqn:Hm.
      * intros Hs. apply IH in Hs as [Hl _]. by destruct l.
      * intros Hs. apply IH in Hs as [Hl Hxs]. split; [done|].
        intros y [->|Hy]%elem_of_cons; [split; congruence | by apply Hxs].
    + destruct (decide (slot x = slot o)) as [Hs|Hs].
      * destruct (py_eq x o).
        -- destruct (sanity_violated bucket x); discriminate.
        -- intros Hsc. apply IH in Hsc as [Hl _]. by destruct l.
      * intros Hsc. apply IH in Hsc as [Hl Hxs]. split; [done|].
        intros y [->|Hy]%elem_of_cons; [split; congruence | by apply Hxs].
Qed.

Lemma limiter_scan_filter atom bucket :
  limiter_scan atom bucket =
  filter (λ x, is_restriction x = false ∧ matches atom x = true) bucket.
Proof.
  unfold limiter_scan.
  enough (∀ l, foldl (λ l x, if negb (is_restriction x) && matches atom x
                             then l ++ [x] else l) l bucket
               = l ++ filter (λ x, is_restriction x = false ∧
                                   matches atom x = true) bucket) as Hgen
    by apply (Hgen []).
  induction bucket as [|x xs IH]; intros l; simpl.
  - by rewrite filter_nil, app_nil_r.
  - rewrite IH, filter_cons. destruct (decide _) as [[Hr Hm]|Hn].
    + rewrite Hr, Hm; simpl. by rewrite <- app_assoc.
    + destruct (is_restriction x) eqn:Hr, (matches atom x) eqn:Hm; simpl;
        try done. by destruct Hn.
Qed.

(** *** The dictionary after each call *)

Lemma fill_slotting_after o d :
  let bucket := default [] (d !! key o) in
  (fill_slotting o d).2 = d ∨
  (fill_scan bucket o bucket [] = ScanEnd [] ∧
   (fill_slotting o d).2 = <[key o := bucket ++ [o]]> d).
Proof.
  unfold fill_slotting, setdefault.
  destruct (d !! key o) as [b|] eqn:Hk; simpl.
  - rewrite Hk; simpl.
    destruct (fill_scan b o b []) as [[|c l]| |] eqn:Hs; simpl; auto.
  - rewrite lookup_insert_eq; simpl. right. split; [done|].
    by rewrite insert_insert_eq.
Qed.

Lemma add_limiter_after atom d :
  (is_restriction atom = false ∧ (add_limiter atom d).2 = d) ∨
  (is_restriction atom = true ∧
   (add_limiter atom d).2 = <[key atom := default [] (d !! key atom) ++ [atom]]> d).
Proof.
  unfold add_limiter, setdefault.
  destruct (is_restriction atom); simpl; [right|by left]. split; [done|].
  destruct (d !! key atom) as [b|] eqn:Hk; simpl.
  - by rewrite Hk.
  - by rewrite lookup_insert_eq, insert_insert_eq.
Qed.

Lemma remove_slotting_after o d :
  (remove_slotting o d).2 = d ∨
  ∃ bucket, d !! key o = Some bucket ∧
    ((filter (λ x, x ≠ o) bucket = [] ∧ (remove_slotting o d).2 = delete (key o) d) ∨
     (filter (λ x, x ≠ o) bucket ≠ [] ∧
      (remove_slotting o d).2 = <[key o := filter (λ x, x ≠ o) bucket]> d)).
Proof.
  unfold remove_slotting.
  destruct (d !! key o) as [b|] eqn:Hk; simpl; [|by left].
  case_decide; simpl; [by left|]. right. exists b. split; [done|].
  destruct (filter (λ x, x ≠ o) b) eqn:Hf; simpl; [by left|by right].
Qed.

(** *** Bucket properties under append and removal *)

Lemma buckets_empty (P : list obj → Prop) : buckets P init.
Proof. intros k b Hk. unfold init in Hk. by rewrite lookup_empty in Hk. Qed.

Lemma buckets_insert (P : list obj → Prop) k b d :
  buckets P d → P b → buckets P (<[k := b]> d).
Proof.
  intros Hd Hb k' b'. rewrite lookup_insert. case_decide.
  - by intros [= <-].
  - apply Hd.
Qed.

Lemma buckets_delete (P : list obj → Prop) k d :
  buckets P d → buckets P (delete k d).
Proof.
  intros Hd k' b'. rewrite lookup_delete. case_decide; [done|apply Hd].
Qed.

Lemma buckets_default (P : list obj → Prop) k d :
  buckets P d → P [] → P (default [] (d !! k)).
Proof. intros Hd Hnil. destruct (d !! k) eqn:Hk; simpl; eauto. Qed.

Lemma one_per_slot_nil : one_per_slot [].
Proof. apply NoDup_nil_2. Qed.

Lemma one_per_slot_snoc bucket o :
  one_per_slot bucket →
  (is_restriction o = false →
   ∀ x, x ∈ bucket → is_restriction x = false → slot x ≠ slot o) →
  one_per_slot (bucket ++ [o]).
Proof.
  unfold one_per_slot, occupants. intros Hb Ho.
  rewrite filter_app, fmap_app, filter_cons, filter_nil.
  case_decide as Hr; simpl; [|by rewrite app_nil_r].
  apply NoDup_app. split_and!; [done| |apply NoDup_singleton].
  intros s [x [-> [Hx Hin]%list_elem_of_filter]]%list_elem_of_fmap.
  rewrite list_elem_of_singleton. by apply Ho.
Qed.

Lemma filter_sublist_mono (P : obj → Prop) `{!∀ x, Decision (P x)} (l k : list obj) :
  l `sublist_of` k → filter P l `sublist_of` filter P k.
Proof.
  induction 1 as [|x l k _ IH|x l k _ IH]; [done| |];
    rewrite ?filter_cons; destruct (decide (P x));
    auto using sublist_skip, sublist_cons.
Qed.

Lemma one_per_slot_sublist l k :
  l `sublist_of` k → one_per_slot k → one_per_slot l.
Proof.
  unfold one_per_slot, occupants. intros Hlk Hk.
  eapply sublist_NoDup; [done|]. by apply fmap_sublist, filter_sublist_mono.
Qed.

Lemma unblocked_before_nil : unblocked_before [].
Proof. intros l1 x l2 Heq. by destruct l1. Qed.

Lemma unblocked_before_snoc bucket o :
  unblocked_before bucket →
  (is_restriction o = false →
   ∀ y, y ∈ blockers bucket → matches y o = false) →
  unblocked_before (bucket ++ [o]).
Proof.
  intros Hb Ho l1 x l2 Heq Hx y Hy.
  destruct l2 as [|z l2 _] using rev_ind.
  - apply app_inj_tail in Heq as [-> ->]. by apply Ho.
  - rewrite app_comm_cons, app_assoc in Heq.
    apply app_inj_tail in Heq as [-> _]. by eapply Hb.
Qed.

Lemma unblocked_before_sublist l k :
  l `sublist_of` k → unblocked_before k → unblocked_before l.
Proof.
  intros Hlk Hk l1 x l2 -> Hx y [Hy Hin]%list_elem_of_filter.
  apply sublist_app_l in Hlk as (k1 & k2 & -> & H1 & H2).
  apply sublist_cons_l in H2 as (k3 & k4 & -> & _).
  apply (Hk (k1 ++ k3) x k4); [by rewrite <- app_assoc|done|].
  apply list_elem_of_filter. split; [done|].
  apply elem_of_app. left. by eapply elem_of_sublist.
Qed.

(** *** Invariants of the reachable dictionaries *)

Lemma after_no_empty_bucket c d : no_empty_bucket d → no_empty_bucket (after c d).
Proof.
  intros Hd. destruct c as [o|a|o]; simpl.
  - destruct (fill_slotting_after o d) as [->|[_ ->]]; [done|].
    apply buckets_insert; [done|]. by destruct (default [] (d !! key o)).
  - destruct (add_limiter_after a d) as [[_ ->]|[_ ->]]; [done|].
    apply buckets_insert; [done|]. by destruct (default [] (d !! key a)).
  - destruct (remove_slotting_after o d) as [->|(b & Hb & [[_ ->]|[Hne ->]])];
      [done|by apply buckets_delete|by apply buckets_insert].
Qed.

Lemma after_ordered_invariant c d :
  ordered_invariant d → ordered_invariant (after c d).
Proof.
  intros [Hs Hu]. destruct c as [o|a|o]; simpl.
  - destruct (fill_slotting_after o d) as [->|[Hscan ->]]; [done|].
    apply fill_scan_end_nil in Hscan as [_ Hscan].
    split; apply buckets_insert; try done.
    + apply one_per_slot_snoc; [apply buckets_default; auto using one_per_slot_nil|].
      intros _ x Hx Hr. by apply Hscan.
    + apply unblocked_before_snoc;
        [apply buckets_default; auto using unblocked_before_nil|].
      intros _ y [Hy Hin]%list_elem_of_filter. by apply Hscan.
  - destruct (add_limiter_after a d) as [[_ ->]|[Ha ->]]; [done|].
    split; apply buckets_insert; try done.
    + apply one_per_slot_snoc; [apply buckets_default; auto using one_per_slot_nil|].
      congruence.
    + apply unblocked_before_snoc;
        [apply buckets_default; auto using unblocked_before_nil|].
      congruence.
  - destruct (remove_slotting_after o d) as [->|(b & Hb & [[_ ->]|[Hne ->]])];
      [done|split; by apply buckets_delete|].
    split; apply buckets_insert; try done.
    + eapply one_per_slot_sublist; [apply sublist_filter|]. by eapply Hs.
    + eapply unblocked_before_sublist; [apply sublist_filter|]. by eapply Hu.
Qed.

Lemma run_snoc cs c d : run (cs ++ [c]) d = after c (run cs d).
Proof. unfold run. by rewrite foldl_snoc. Qed.

Lemma ordered_invariant_init : ordered_invariant init.
Proof. split; apply buckets_empty. Qed.

Lemma filter_ne_absent (o : obj) (bucket : list obj) :
  o ∉ bucket → filter (λ x, x ≠ o) bucket = bucket.
Proof.
  induction bucket as [|x xs IH]; [done|].
  intros [Hx Hxs]%not_elem_of_cons.
  rewrite filter_cons_True by done. by rewrite IH.
Qed.

(** *** The stated properties *)

(** C1 (amended): after every sequence of [fill_slotting], [add_limiter] and
    [remove_slotting] calls on an empty tracker, each bucket holds at most one
    concrete occupant per slot identifier, and no concrete occupant is matched
    by a blocker that stands before it in its bucket, that is, by a blocker
    registered under the same key before the occupant was inserted. *)
Theorem ordered_invariant_run cs : ordered_invariant (run cs init).
Proof.
  induction cs as [|c cs IH] using rev_ind.
  - apply ordered_invariant_init.
  - rewrite run_snoc. by apply after_ordered_invariant.
Qed.

(** C7: on an empty tracker, [fill_slotting(A)] for a concrete [A] returns
    the empty list and stores [A]; then [fill_slotting(B)], for [B] of the same
    key and slot with [A == B] false, returns [[A]] and inserts nothing; then
    [fill_slotting] of an object of the same key and slot that [A] equals
    returns the empty list and leaves the bucket with the one entry [A]. *)
Theorem fill_slotting_scenario (A B A' : obj) :
  is_restriction A = false →
  key B = key A → slot B = slot A → py_eq A B = false →
  key A' = key A → slot A' = slot A → py_eq A A' = true →
  let d1 := (fill_slotting A init).2 in
  let d2 := (fill_slotting B d1).2 in
  let d3 := (fill_slotting A' d2).2 in
  fill_slotting A init = (Ok [], {[key A := [A]]}) ∧
  fill_slotting B d1 = (Ok [A], d1) ∧
  fill_slotting A' d2 = (Ok [], d2) ∧
  d3 !! key A = Some [A].
Proof.
  intros HA HkB HsB HeB HkA' HsA' HeA'.
  assert (fill_slotting A init = (Ok [], {[key A := [A]]})) as H1.
  { unfold fill_slotting, setdefault, init. rewrite lookup_empty; simpl.
    rewrite lookup_insert_eq; simpl. by rewrite insert_insert_eq, insert_empty. }
  assert (fill_slotting B {[key A := [A]]} = (Ok [A], {[key A := [A]]})) as H2.
  { unfold fill_slotting, setdefault. rewrite HkB, lookup_singleton_eq; simpl.
    rewrite lookup_singleton_eq; simpl. rewrite HA, HsB.
    by rewrite decide_True, HeB by done. }
  assert (fill_slotting A' {[key A := [A]]} = (Ok [], {[key A := [A]]})) as H3.
  { unfold fill_slotting, setdefault. rewrite HkA', lookup_singleton_eq; simpl.
    rewrite lookup_singleton_eq; simpl. rewrite HA, HsA'.
    rewrite decide_True, HeA' by done.
    unfold sanity_violated. rewrite filter_cons_False by congruence. done. }
  simpl. rewrite H1; simpl. rewrite H2; simpl. rewrite H3; simpl.
  split_and!; try done. by rewrite lookup_singleton_eq.
Qed.

(** C8: [remove_slotting(entry)] raises [KeyError] when the entry's key has
    no bucket and when the entry is not in the bucket by identity; otherwise
    it keeps the entries of the bucket other than the entry, and removes the
    key when none is left; after every sequence of calls no key maps to an
    empty sequence. *)
Theorem remove_slotting_spec o d :
  (d !! key o = None → remove_slotting o d = (Raise KeyError, d)) ∧
  (∀ bucket, d !! key o = Some bucket → o ∉ bucket →
     remove_slotting o d = (Raise KeyError, d)) ∧
  (∀ bucket, d !! key o = Some bucket → o ∈ bucket →
     let rest := filter (λ x, x ≠ o) bucket in
     remove_slotting o d =
       (Ok (), if decide (rest = []) then delete (key o) d
               else <[key o := rest]> d)) ∧
  (∀ cs, no_empty_bucket (run cs init)).
Proof.
  split_and!.
  - intros Hk. unfold remove_slotting. by rewrite Hk.
  - intros b Hk Ho. unfold remove_slotting. rewrite Hk; simpl.
    rewrite filter_ne_absent by done. by rewrite decide_True.
  - intros b Hk Ho. unfold remove_slotting. rewrite Hk; simpl.
    rewrite decide_False.
    + by destruct (filter (λ x, x ≠ o) b).
    + pose proof (length_filter_lt (λ x, x ≠ o) b o Ho) as Hlt.
      intros Heq. rewrite Heq in Hlt. apply (Nat.lt_irrefl (length b)).
      apply Hlt. by intros Hne.
  - intros cs. induction cs as [|c cs IH] using rev_ind.
    + apply buckets_empty.
    + rewrite run_snoc. by apply after_no_empty_bucket.
Qed.

(** *** Further properties of the tracker *)

(** The entries of a bucket that stand against [o]: the blockers that match
    it and the occupants of its slot, in bucket order. *)
Definition conflicts (o : obj) (bucket : list obj) : list obj :=
  filter (λ x, (is_restriction x = true ∧ matches x o = true) ∨
               (is_restriction x = false ∧ slot x = slot o)) bucket.

(** The object a call is about. *)
Definition subject (c : call) : obj :=
  match c with FillSlotting o | AddLimiter o | RemoveSlotting o => o end.

(** Every entry stands in the bucket of its own key. *)
Definition keyed (d : slot_dict) : Prop :=
  ∀ k bucket x, d !! k = Some bucket → x ∈ bucket → key x = k.

(** A sequence of calls in which [fill_slotting] is given concrete objects
    only and every [add_limiter] that returns returns no conflict. *)
Definition heeds (c : call) (d : slot_dict) : Prop :=
  match c with
  | FillSlotting o => is_restriction o = false
  | AddLimiter a => ∀ l, (add_limiter a d).1 = Ok l → l = []
  | RemoveSlotting _ => True
  end.

Fixpoint heeded (cs : list call) (d : slot_dict) : Prop :=
  match cs with
  | [] => True
  | c :: cs' => heeds c d ∧ heeded cs' (after c d)
  end.

Lemma fill_scan_no_equal bucket o xs l :
  (∀ x, x ∈ xs → is_restriction x = false → slot x = slot o →
        py_eq x o = false) →
  fill_scan bucket o xs l = ScanEnd (l ++ conflicts o xs).
Proof.
  revert l. induction xs as [|x xs IH]; intros l Hne; simpl.
  { by rewrite app_nil_r. }
  assert (∀ l', fill_scan bucket o xs l' = ScanEnd (l' ++ conflicts o xs)) as IH'.
  { intros l'. apply IH. intros y Hy. apply Hne. by apply list_elem_of_further. }
  unfold conflicts. rewrite filter_cons.
  destruct (is_restriction x) eqn:Hr.
  - destruct (matches x o) eqn:Hm.
    + rewrite decide_True by auto. by rewrite IH', <- app_assoc.
    + rewrite decide_False by (intros [[_ ?]|[? _]]; congruence). apply IH'.
  - destruct (decide (slot x = slot o)) as [Hs|Hs].
    + rewrite (Hne x) by (done || apply list_elem_of_here).
      rewrite decide_True by auto. by rewrite IH', <- app_assoc.
    + rewrite decide_False by (intros [[? _]|[_ ?]]; congruence). apply IH'.
Qed.

Lemma fill_scan_hits bucket o x xs l :
  x ∈ xs → is_restriction x = false → slot x = slot o → py_eq x o = true →
  (∀ y, y ∈ xs → is_restriction y = false → slot y = slot o → y = x) →
  fill_scan bucket o xs l
  = if sanity_violated bucket x then ScanRaise else ScanReturnEmpty.
Proof.
  intros Hx Hr Hs He. revert l.
  induction xs as [|y xs IH]; intros l Huniq; [by apply elem_of_nil in Hx|].
  assert (∀ z, z ∈ xs → is_restriction z = false → slot z = slot o → z = x)
    as Huniq' by (intros z Hz; apply Huniq; by apply list_elem_of_further).
  simpl. destruct (is_restriction y) eqn:Hry.
  - apply elem_of_cons in Hx as [->|Hx]; [congruence|].
    destruct (matches y o); by apply IH.
  - destruct (decide (slot y = slot o)) as [Hsy|Hsy].
    + rewrite (Huniq y) by (done || apply list_elem_of_here). by rewrite He.
    + apply elem_of_cons in Hx as [->|Hx]; [congruence|]. by apply IH.
Qed.

Lemma one_per_slot_unique bucket x y :
  one_per_slot bucket → x ∈ bucket → y ∈ bucket →
  is_restriction x = false → is_restriction y = false →
  slot x = slot y → x = y.
Proof.
  unfold one_per_slot, occupants. intros Hnd Hx Hy Hrx Hry Hs.
  assert (x ∈ filter (λ z, is_restriction z = false) bucket) as Hx'
    by by apply list_elem_of_filter.
  assert (y ∈ filter (λ z, is_restriction z = false) bucket) as Hy'
    by by apply list_elem_of_filter.
  revert Hnd Hx' Hy'. generalize (filter (λ z, is_restriction z = false) bucket).
  intros l. induction l as [|z l IH]; [by intros _ ?%elem_of_nil|].
  rewrite fmap_cons. intros [Hz Hnd]%NoDup_cons Hx' Hy'.
  apply elem_of_cons in Hx' as [->|Hx']; apply elem_of_cons in Hy' as [->|Hy'].
  - done.
  - destruct Hz. rewrite Hs. by apply list_elem_of_fmap_2.
  - destruct Hz. rewrite <- Hs. by apply list_elem_of_fmap_2.
  - by apply IH.
Qed.

Lemma existsb_false_on {A} (f : A → bool) (l : list A) :
  (∀ x, x ∈ l → f x = false) → existsb f l = false.
Proof.
  induction l as [|x l IH]; intros Hl; simpl; [done|].
  rewrite (Hl x) by apply list_elem_of_here. apply IH.
  intros y Hy. apply Hl. by apply list_elem_of_further.
Qed.

Lemma unblocked_nil : unblocked [].
Proof. intros x y Hx. by apply elem_of_nil in Hx. Qed.

Lemma unblocked_snoc_occupant bucket o :
  unblocked bucket → is_restriction o = false →
  (∀ y, y ∈ blockers bucket → matches y o = false) →
  unblocked (bucket ++ [o]).
Proof.
  unfold unblocked, occupants, blockers. intros Hb Ho Hfree x y.
  rewrite !filter_app, !filter_cons, !filter_nil.
  rewrite decide_True, decide_False, app_nil_r by congruence.
  intros [Hx| ->%list_elem_of_singleton]%elem_of_app Hy; auto.
Qed.

Lemma unblocked_snoc_blocker bucket a :
  unblocked bucket → is_restriction a = true →
  (∀ x, x ∈ occupants bucket → matches a x = false) →
  unblocked (bucket ++ [a]).
Proof.
  unfold unblocked, occupants, blockers. intros Hb Ha Hfree x y.
  rewrite !filter_app, !filter_cons, !filter_nil.
  rewrite decide_False, decide_True, app_nil_r by congruence.
  intros Hx [Hy| ->%list_elem_of_singleton]%elem_of_app; auto.
Qed.

Lemma unblocked_sublist l k : l `sublist_of` k → unblocked k → unblocked l.
Proof.
  unfold unblocked, occupants, blockers. intros Hlk Hk x y Hx Hy.
  apply Hk; eapply elem_of_sublist; eauto using filter_sublist_mono.
Qed.

Lemma remove_appended o bucket d :
  no_empty_bucket d → bucket = default [] (d !! key o) → o ∉ bucket →
  remove_slotting o (<[key o := bucket ++ [o]]> d) = (Ok (), d).
Proof.
  intros Hne Hb Ho. unfold remove_slotting. rewrite lookup_insert_eq.
  cbv zeta. rewrite filter_app, filter_ne_absent by done.
  rewrite filter_cons_False, filter_nil, app_nil_r by (by intros ?).
  rewrite decide_False by (rewrite length_app; simpl; lia).
  destruct (d !! key o) as [b|] eqn:Hk; simpl in Hb; subst bucket.
  - destruct b as [|x b]; [by destruct (Hne _ _ Hk)|].
    by rewrite insert_insert_eq, insert_id.
  - by rewrite delete_insert_eq, delete_id.
Qed.

Lemma add_limiter_restriction atom d :
  is_restriction atom = true →
  add_limiter atom d
  = (Ok (filter (λ x, is_restriction x = false ∧ matches atom x = true)
           (default [] (d !! key atom))),
     <[key atom := default [] (d !! key atom) ++ [atom]]> d).
Proof.
  intros Hr. unfold add_limiter, setdefault. rewrite Hr; simpl.
  destruct (d !! key atom) as [b|] eqn:Hk; simpl.
  - by rewrite Hk, limiter_scan_filter.
  - by rewrite lookup_insert_eq, insert_insert_eq.
Qed.

(** [add_limiter] raises [TypeError] and changes nothing when the atom is
    not a restriction; otherwise it returns, in bucket order, the concrete
    occupants under the atom's key that the atom matches, and appends the
    atom to that bucket whether or not there were any. *)
Theorem add_limiter_reports atom d :
  let bucket := default [] (d !! key atom) in
  add_limiter atom d
  = if is_restriction atom
    then (Ok (filter (λ x, is_restriction x = false ∧ matches atom x = true)
                bucket),
          <[key atom := bucket ++ [atom]]> d)
    else (Raise TypeError, d).
Proof.
  cbv zeta. destruct (is_restriction atom) eqn:Hr.
  - by apply add_limiter_restriction.
  - unfold add_limiter. by rewrite Hr.
Qed.

(** When no occupant of the bucket with the candidate's slot is [==] to the
    candidate, [fill_slotting] returns every conflict of the bucket (the
    blockers that match the candidate and the occupants of its slot, in
    bucket order) and leaves the registry alone, or, when there is none,
    appends the candidate and returns the empty list. *)
Theorem fill_slotting_conflicts o d :
  let bucket := default [] (d !! key o) in
  (∀ x, x ∈ bucket → is_restriction x = false → slot x = slot o →
        py_eq x o = false) →
  fill_slotting o d
  = match conflicts o bucket with
    | [] => (Ok [], <[key o := bucket ++ [o]]> d)
    | l => (Ok l, d)
    end.
Proof.
  unfold fill_slotting, setdefault.
  destruct (d !! key o) as [b|] eqn:Hk; simpl; intros Hne.
  - rewrite Hk; simpl. rewrite fill_scan_no_equal by done. simpl.
    by destruct (conflicts o b).
  - rewrite lookup_insert_eq; simpl. by rewrite insert_insert_eq.
Qed.

(** Re-confirming an occupant: when the bucket, with at most one occupant
    per slot, holds an occupant of the candidate's slot that is [==] to the
    candidate, [fill_slotting] never changes the registry or reports a
    conflict: it returns the empty list, or raises when a blocker of the
    bucket matches that occupant. *)
Theorem fill_slotting_reconfirm o x bucket d :
  d !! key o = Some bucket → one_per_slot bucket →
  x ∈ bucket → is_restriction x = false → slot x = slot o →
  py_eq x o = true →
  fill_slotting o d
  = (if sanity_violated bucket x then Raise SanityException else Ok [], d).
Proof.
  intros Hk Hone Hx Hr Hs He. unfold fill_slotting, setdefault.
  rewrite Hk; simpl. rewrite Hk; simpl.
  rewrite (fill_scan_hits bucket o x bucket []); try done.
  - by destruct (sanity_violated bucket x).
  - intros y Hy Hry Hsy. apply (one_per_slot_unique bucket); congruence.
Qed.

(** Inserting is idempotent: once [fill_slotting] has returned the empty
    list for a concrete object that is [==] to itself, calling it again with
    that object returns the empty list and leaves the registry as it is. *)
Theorem fill_slotting_idempotent o d d' :
  buckets one_per_slot d → is_restriction o = false → py_eq o o = true →
  fill_slotting o d = (Ok [], d') → fill_slotting o d' = (Ok [], d').
Proof.
  intros Hone Hr He Hfill.
  destruct (fill_slotting_after o d) as [Hsame|[Hscan Hins]];
    rewrite Hfill in *; simpl in *; subst d'; [done|].
  apply fill_scan_end_nil in Hscan as [_ Hscan].
  set (bucket := default [] (d !! key o)) in *.
  assert (one_per_slot (bucket ++ [o])) as Hone'.
  { apply one_per_slot_snoc;
      [apply buckets_default; auto using one_per_slot_nil|].
    intros _ x Hx Hrx. by apply Hscan. }
  assert (o ∈ bucket ++ [o]) as Hin
    by (apply elem_of_app; right; apply list_elem_of_here).
  assert (sanity_violated (bucket ++ [o]) o = false) as Hsane.
  { unfold sanity_violated. apply existsb_false_on.
    intros y [Hy [Hy'| ->%list_elem_of_singleton]%elem_of_app]%list_elem_of_filter;
      [by apply Hscan|congruence]. }
  unfold fill_slotting, setdefault.
  rewrite lookup_insert_eq; simpl. rewrite lookup_insert_eq; simpl.
  rewrite (fill_scan_hits (bucket ++ [o]) o o (bucket ++ [o]) []); try done.
  - by rewrite Hsane.
  - intros y Hy Hry Hsy. by apply (one_per_slot_unique (bucket ++ [o])).
Qed.

(** Removing what was just added restores the registry: on a registry
    without empty buckets, after a [fill_slotting] that inserted the object,
    or an [add_limiter] of a restriction, [remove_slotting] of that object
    (not already in the bucket before) gives back the registry as it was. *)
Theorem remove_undoes_insert o d :
  no_empty_bucket d → o ∉ default [] (d !! key o) →
  ((fill_slotting o d).2 ≠ d →
   remove_slotting o (fill_slotting o d).2 = (Ok (), d)) ∧
  (is_restriction o = true →
   remove_slotting o (add_limiter o d).2 = (Ok (), d)).
Proof.
  intros Hne Ho. split.
  - intros Hchanged.
    destruct (fill_slotting_after o d) as [Hsame|[_ ->]]; [done|].
    by apply remove_appended.
  - intros Hr.
    destruct (add_limiter_after o d) as [[? _]|[_ ->]]; [congruence|].
    by apply remove_appended.
Qed.

(** After [remove_slotting] has removed an entry, removing it again raises
    [KeyError] and changes nothing. *)
Theorem remove_slotting_twice o d d' :
  remove_slotting o d = (Ok (), d') →
  remove_slotting o d' = (Raise KeyError, d').
Proof.
  unfold remove_slotting at 1.
  destruct (d !! key o) as [b|] eqn:Hk; [|done].
  cbv zeta. case_decide; [done|].
  destruct (filter (λ x, x ≠ o) b) as [|y l] eqn:Hf; intros [= <-].
  - unfold remove_slotting. by rewrite lookup_delete_eq.
  - unfold remove_slotting. rewrite lookup_insert_eq. cbv zeta.
    rewrite filter_ne_absent, decide_True; [done|done|].
    rewrite <- Hf. by intros [? _]%list_elem_of_filter.
Qed.

(** A call leaves the buckets of all other keys as they are. *)
Theorem after_other_keys c d k :
  k ≠ key (subject c) → after c d !! k = d !! k.
Proof.
  intros Hk. destruct c as [o|a|o]; simpl in *.
  - destruct (fill_slotting_after o d) as [->|[_ ->]]; [done|].
    by rewrite lookup_insert_ne.
  - destruct (add_limiter_after a d) as [[_ ->]|[_ ->]]; [done|].
    by rewrite lookup_insert_ne.
  - destruct (remove_slotting_after o d) as [->|(b & Hb & [[_ ->]|[_ ->]])];
      [done|by rewrite lookup_delete_ne|by rewrite lookup_insert_ne].
Qed.

Lemma after_keyed c d : keyed d → keyed (after c d).
Proof.
  intros Hd.
  assert (∀ o, keyed (<[key o := default [] (d !! key o) ++ [o]]> d)) as Happ.
  { intros o k b x. rewrite lookup_insert. case_decide as Hk; [|apply Hd].
    subst k. intros [= <-] [Hx| ->%list_elem_of_singleton]%elem_of_app; [|done].
    destruct (d !! key o) as [b|] eqn:Hb; simpl in Hx;
      [by eapply Hd|by apply elem_of_nil in Hx]. }
  destruct c as [o|a|o]; simpl.
  - destruct (fill_slotting_after o d) as [->|[_ ->]]; [done|apply Happ].
  - destruct (add_limiter_after a d) as [[_ ->]|[_ ->]]; [done|apply Happ].
  - destruct (remove_slotting_after o d) as [->|(b & Hb & [[_ ->]|[_ ->]])];
      [done| |].
    + intros k b' x. rewrite lookup_delete. case_decide; [done|apply Hd].
    + intros k b' x. rewrite lookup_insert. case_decide as Hk; [|apply Hd].
      subst k. intros [= <-] [_ Hx]%list_elem_of_filter. by eapply Hd.
Qed.

(** After every sequence of calls on an empty tracker, every entry stands
    in the bucket of its own key. *)
Theorem keyed_run cs : keyed (run cs init).
Proof.
  induction cs as [|c cs IH] using rev_ind.
  - intros k b x Hk. unfold run, init in Hk. simpl in Hk.
    by rewrite lookup_empty in Hk.
  - rewrite run_snoc. by apply after_keyed.
Qed.

Lemma after_data_invariant c d :
  data_invariant d → heeds c d → data_invariant (after c d).
Proof.
  intros [Hs Hu] Hc. destruct c as [o|a|o]; simpl in *.
  - destruct (fill_slotting_after o d) as [->|[Hscan ->]]; [done|].
    apply fill_scan_end_nil in Hscan as [_ Hscan].
    split; apply buckets_insert; try done.
    + apply one_per_slot_snoc; [apply buckets_default; auto using one_per_slot_nil|].
      intros _ x Hx Hr. by apply Hscan.
    + apply unblocked_snoc_occupant;
        [apply buckets_default; auto using unblocked_nil|done|].
      intros y [Hy Hin]%list_elem_of_filter. by apply Hscan.
  - destruct (is_restriction a) eqn:Ha.
    2:{ destruct (add_limiter_after a d) as [[_ ->]|[? _]]; [done|congruence]. }
    rewrite (add_limiter_restriction a d Ha) in *. simpl in *.
    specialize (Hc _ eq_refl).
    split; apply buckets_insert; try done.
    + apply one_per_slot_snoc; [apply buckets_default; auto using one_per_slot_nil|].
      congruence.
    + apply unblocked_snoc_blocker;
        [apply buckets_default; auto using unblocked_nil|done|].
      intros x [Hx Hin]%list_elem_of_filter.
      destruct (matches a x) eqn:Hm; [|done].
      by destruct (filter_nil_not_elem_of _ _ x Hc).
  - destruct (remove_slotting_after o d) as [->|(b & Hb & [[_ ->]|[Hne ->]])];
      [done|split; by apply buckets_delete|].
    split; apply buckets_insert; try done.
    + eapply one_per_slot_sublist; [apply sublist_filter|]. by eapply Hs.
    + eapply unblocked_sublist; [apply sublist_filter|]. by eapply Hu.
Qed.

(** When [fill_slotting] is only given concrete objects and every
    [add_limiter] returns no conflict, the invariant holds in full after the
    sequence: at most one occupant per slot, and no occupant matched by any
    blocker of its bucket. *)
Theorem heeded_data_invariant cs :
  heeded cs init → data_invariant (run cs init).
Proof.
  assert (∀ d, data_invariant d → heeded cs d → data_invariant (run cs d))
    as Hgen.
  { induction cs as [|c cs IH]; intros d Hd Hcs; [done|].
    destruct Hcs as [Hc Hcs]. apply (IH (after c d)); [|done].
    by apply after_data_invariant. }
  apply Hgen. split; apply buckets_empty.
Qed.

End tracker.

(** *** A concrete universe of objects

    Packages carry an identity, a key, a slot and a version; [==] on packages
    compares key, slot and version, not identity.  A blocker matches the
    packages of its key that have its version. *)

Module Demo.

Inductive entry : Type :=
| Pkg (ident : nat) (cat : string) (slt ver : nat)
| Blocker (ident : nat) (cat : string) (ver : nat).

#[global] Instance entry_eq_dec : EqDecision entry.
Proof. solve_decision. Defined.

Definition key (x : entry) : string :=
  match x with Pkg _ c _ _ | Blocker _ c _ => c end.

Definition slot (x : entry) : nat :=
  match x with Pkg _ _ s _ => s | Blocker _ _ _ => 0 end.

Definition is_restriction (x : entry) : bool :=
  match x with Pkg _ _ _ _ => false | Blocker _ _ _ => true end.

Definition py_eq (x y : entry) : bool :=
  match x, y with
  | Pkg _ c s v, Pkg _ c' s' v' =>
      bool_decide (c = c') && bool_decide (s = s') && bool_decide (v = v')
  | _, _ => bool_decide (x = y)
  end.

Definition matches (r x : entry) : bool :=
  match r, x with
  | Blocker _ c v, Pkg _ c' _ v' => bool_decide (c = c') && bool_decide (v = v')
  | _, _ => false
  end.

Definition python_2_7 : entry := Pkg 1 "dev-lang/python" 1 27.
Definition python_2_6 : entry := Pkg 2 "dev-lang/python" 1 26.
Definition python_2_7_again : entry := Pkg 3 "dev-lang/python" 1 27.
Definition block_python_2_7 : entry := Blocker 4 "dev-lang/python" 27.

Abbreviation fill := (fill_slotting key slot is_restriction py_eq matches).
Abbreviation limit := (add_limiter key is_restriction matches).
Abbreviation remove := (remove_slotting key).
Abbreviation run := (PigeonHoles.run key slot is_restriction py_eq matches).

End Demo.

(** C1 fails as stated: after [fill_slotting] of a package and
    [add_limiter] of a blocker that matches it, the blocker is in the bucket
    next to the occupant it matches. *)
Lemma data_invariant_broken_by_add_limiter :
  Demo.limit Demo.block_python_2_7 (Demo.fill Demo.python_2_7 init).2
  = (Ok [Demo.python_2_7],
     {["dev-lang/python" := [Demo.python_2_7; Demo.block_python_2_7]]}) ∧
  ¬ data_invariant Demo.slot Demo.is_restriction Demo.matches
      (Demo.run [FillSlotting Demo.python_2_7;
                 AddLimiter Demo.block_python_2_7] init).
Proof.
  split; [by vm_compute|].
  intros [_ Hu].
  specialize (Hu "dev-lang/python"
                 [Demo.python_2_7; Demo.block_python_2_7] eq_refl
                 Demo.python_2_7 Demo.block_python_2_7).
  discriminate Hu; unfold occupants, blockers; simpl; set_solver.
Qed.

Lemma fill_slotting_scenario_witness :
  Demo.fill Demo.python_2_7 init
  = (Ok [], {["dev-lang/python" := [Demo.python_2_7]]}) ∧
  Demo.fill Demo.python_2_6 (Demo.fill Demo.python_2_7 init).2
  = (Ok [Demo.python_2_7], (Demo.fill Demo.python_2_7 init).2) ∧
  Demo.fill Demo.python_2_7_again
    (Demo.fill Demo.python_2_6 (Demo.fill Demo.python_2_7 init).2).2
  = (Ok [], (Demo.fill Demo.python_2_6 (Demo.fill Demo.python_2_7 init).2).2) ∧
  (Demo.fill Demo.python_2_7_again
    (Demo.fill Demo.python_2_6 (Demo.fill Demo.python_2_7 init).2).2).2
  !! "dev-lang/python" = Some [Demo.python_2_7].
Proof.
  exact (fill_slotting_scenario Demo.key Demo.slot Demo.is_restriction
           Demo.py_eq Demo.matches
           Demo.python_2_7 Demo.python_2_6 Demo.python_2_7_again
           eq_refl eq_refl eq_refl eq_refl eq_refl eq_refl eq_refl).
Defined.


Lemma remove_slotting_spec_witness :
  Demo.remove Demo.python_2_7 init = (Raise KeyError, init) ∧
  Demo.remove Demo.python_2_6 {["dev-lang/python" := [Demo.python_2_7]]}
  = (Raise KeyError, {["dev-lang/python" := [Demo.python_2_7]]}) ∧
  Demo.remove Demo.python_2_7 {["dev-lang/python" := [Demo.python_2_7]]}
  = (Ok (), ∅) ∧
  Demo.remove Demo.python_2_7
    {["dev-lang/python" := [Demo.python_2_7; Demo.block_python_2_7]]}
  = (Ok (), {["dev-lang/python" := [Demo.block_python_2_7]]}).
Proof.
  pose (spec := remove_slotting_spec Demo.key Demo.slot Demo.is_restriction
                  Demo.py_eq Demo.matches Demo.python_2_7).
  split_and!.
  - exact (proj1 (spec init) eq_refl).
  - refine (proj1 (proj2 (remove_slotting_spec Demo.key Demo.slot
              Demo.is_restriction Demo.py_eq Demo.matches Demo.python_2_6
              {["dev-lang/python" := [Demo.python_2_7]]})) _ eq_refl _).
    by intros [=]%list_elem_of_singleton.
  - refine (proj1 (proj2 (proj2
              (spec {["dev-lang/python" := [Demo.python_2_7]]})))
              [Demo.python_2_7] eq_refl _).
    apply list_elem_of_here.
  - refine (proj1 (proj2 (proj2
              (spec {["dev-lang/python" :=
                        [Demo.python_2_7; Demo.block_python_2_7]]})))
              [Demo.python_2_7; Demo.block_python_2_7] eq_refl _).
    apply list_elem_of_here.
Defined.

(** *** The further properties on the concrete universe *)

Lemma fill_slotting_conflicts_witness :
  Demo.fill Demo.python_2_6
    {["dev-lang/python" := [Demo.python_2_7; Demo.block_python_2_7]]}
  = (Ok [Demo.python_2_7],
     {["dev-lang/python" := [Demo.python_2_7; Demo.block_python_2_7]]}).
Proof.
  refine (fill_slotting_conflicts Demo.key Demo.slot Demo.is_restriction
            Demo.py_eq Demo.matches Demo.python_2_6
            {["dev-lang/python" := [Demo.python_2_7; Demo.block_python_2_7]]} _).
  intros x Hx Hr Hs. simpl in Hx.
  apply elem_of_cons in Hx as [->|Hx]; [done|].
  apply list_elem_of_singleton in Hx as ->. done.
Defined.

Lemma fill_slotting_reconfirm_witness :
  Demo.fill Demo.python_2_7_again
    {["dev-lang/python" := [Demo.python_2_7; Demo.block_python_2_7]]}
  = (Raise SanityException,
     {["dev-lang/python" := [Demo.python_2_7; Demo.block_python_2_7]]}).
Proof.
  refine (fill_slotting_reconfirm Demo.key Demo.slot Demo.is_restriction
            Demo.py_eq Demo.matches Demo.python_2_7_again Demo.python_2_7
            [Demo.python_2_7; Demo.block_python_2_7]
            {["dev-lang/python" := [Demo.python_2_7; Demo.block_python_2_7]]}
            eq_refl _ _ eq_refl eq_refl eq_refl).
  - apply NoDup_singleton.
  - apply list_elem_of_here.
Defined.

Lemma fill_slotting_idempotent_witness :
  Demo.fill Demo.python_2_7 {["dev-lang/python" := [Demo.python_2_7]]}
  = (Ok [], {["dev-lang/python" := [Demo.python_2_7]]}).
Proof.
  refine (fill_slotting_idempotent Demo.key Demo.slot Demo.is_restriction
            Demo.py_eq Demo.matches Demo.python_2_7 init _ _
            eq_refl eq_refl eq_refl).
  apply buckets_empty.
Defined.

Lemma remove_undoes_insert_witness :
  ((Demo.fill Demo.python_2_7 init).2 ≠ init →
   Demo.remove Demo.python_2_7 (Demo.fill Demo.python_2_7 init).2
   = (Ok (), init)) ∧
  (Demo.is_restriction Demo.block_python_2_7 = true →
   Demo.remove Demo.block_python_2_7 (Demo.limit Demo.block_python_2_7 init).2
   = (Ok (), init)).
Proof.
  split.
  - refine (proj1 (remove_undoes_insert Demo.key Demo.slot Demo.is_restriction
                     Demo.py_eq Demo.matches Demo.python_2_7 init _ _)).
    + apply buckets_empty.
    + apply not_elem_of_nil.
  - refine (proj2 (remove_undoes_insert Demo.key Demo.slot Demo.is_restriction
                     Demo.py_eq Demo.matches Demo.block_python_2_7 init _ _)).
    + apply buckets_empty.
    + apply not_elem_of_nil.
Defined.

Lemma remove_slotting_twice_witness :
  Demo.remove Demo.python_2_7
    {["dev-lang/python" := [Demo.block_python_2_7]]}
  = (Raise KeyError, {["dev-lang/python" := [Demo.block_python_2_7]]}).
Proof.
  exact (remove_slotting_twice Demo.key Demo.python_2_7
           {["dev-lang/python" := [Demo.python_2_7; Demo.block_python_2_7]]}
           {["dev-lang/python" := [Demo.block_python_2_7]]} eq_refl).
Defined.

Lemma after_other_keys_witness :
  after Demo.key Demo.slot Demo.is_restriction Demo.py_eq Demo.matches
    (FillSlotting Demo.python_2_7)
    {["dev-lang/perl" := [Demo.Pkg 9 "dev-lang/perl" 0 5]]} !! "dev-lang/perl"
  = Some [Demo.Pkg 9 "dev-lang/perl" 0 5].
Proof.
  refine (after_other_keys Demo.key Demo.slot Demo.is_restriction Demo.py_eq
            Demo.matches (FillSlotting Demo.python_2_7)
            {["dev-lang/perl" := [Demo.Pkg 9 "dev-lang/perl" 0 5]]}
            "dev-lang/perl" _).
  by intros [=].
Defined.

Lemma heeded_data_invariant_witness :
  data_invariant Demo.slot Demo.is_restriction Demo.matches
    (Demo.run [FillSlotting Demo.python_2_6;
               AddLimiter Demo.block_python_2_7;
               FillSlotting Demo.python_2_7;
               RemoveSlotting Demo.python_2_6] init).
Proof.
  refine (heeded_data_invariant Demo.key Demo.slot Demo.is_restriction
            Demo.py_eq Demo.matches _ _).
  repeat split. by intros l [= <-].
Defined.

End PigeonHoles.

(** ** pkgcore.cache *)

Module Cache.

(** *** Errors *)

#[global] Instance result_ret {E} : MRet (result E) := λ A, Ok.

#[global] Instance result_bind {E} : MBind (result E) :=
  λ A B f r, match r with Ok a => f a | Raise e => Raise e end.

(** What a [CacheCorruption] reports besides the coordinate: the token count
    of line 188, or the raw string of line 200. *)
Inductive corruption : Type :=
| InvalidLen (n : nat)
| ValueErrorReading (eclass_string : string).

(** The exceptions of the cache template: the two of [pkgcore.cache.errors]
    it raises, and the built-in ones that its statements can raise. *)
Inductive exn (cpv : Type) : Type :=
| ReadOnly
| CacheCorruption (c : cpv) (why : corruption)
| NotImplementedError
| TypeError
| ValueError
| IndexError
| KeyError (k : string)
| AttributeError.
Arguments ReadOnly {cpv}.
Arguments CacheCorruption {cpv} c why.
Arguments NotImplementedError {cpv}.
Arguments TypeError {cpv}.
Arguments ValueError {cpv}.
Arguments IndexError {cpv}.
Arguments KeyError {cpv} k.
Arguments AttributeError {cpv}.

(** *** Strings *)

(** The separator, ["\t"]. *)
Definition tab : ascii := "009"%char.

(** The characters [str.strip()] removes: space, tab, newline, vertical tab,
    form feed and carriage return. *)
Definition is_space (c : ascii) : bool :=
  match c with
  | " " | "009" | "010" | "011" | "012" | "013" => true
  | _ => false
  end%char.

Definition is_digit (c : ascii) : bool :=
  match c with
  | "0" | "1" | "2" | "3" | "4" | "5" | "6" | "7" | "8" | "9" => true
  | _ => false
  end%char.

Fixpoint string_forallb (f : ascii → bool) (s : string) : bool :=
  match s with
  | EmptyString => true
  | String c s' => f c && string_forallb f s'
  end.

(** [s.lstrip()] *)
Fixpoint lstrip (s : string) : string :=
  match s with
  | EmptyString => EmptyString
  | String c s' => if is_space c then lstrip s' else s
  end.

(** [s.rstrip()] *)
Fixpoint rstrip (s : string) : string :=
  match s with
  | EmptyString => EmptyString
  | String c s' =>
      match rstrip s' with
      | EmptyString => if is_space c then EmptyString else String c EmptyString
      | r => String c r
      end
  end.

(** [s.strip()] *)
Definition strip (s : string) : string := rstrip (lstrip s).

(** [s.split("\t")] *)
Fixpoint split_tab (s : string) : list string :=
  match s with
  | EmptyString => [EmptyString]
  | String c s' =>
      if Ascii.eqb c tab then EmptyString :: split_tab s'
      else match split_tab s' with
           | t :: ts => String c t :: ts
           | [] => [String c EmptyString]
           end
  end.

(** ["\t".join(ts)] *)
Fixpoint join_tab (ts : list string) : string :=
  match ts with
  | [] => EmptyString
  | [t] => t
  | t :: ts' => t +:+ String tab (join_tab ts')
  end.

(** [s.isdigit()]: at least one character, all of them decimal digits. *)
Definition isdigit (s : string) : bool :=
  match s with
  | EmptyString => false
  | _ => string_forallb is_digit s
  end.

(** ["%s" % n] for an integer [n]. *)
Definition str_of_int (n : Z) : string := NilZero.string_of_int (Z.to_int n).

(** A trailing [L] or [l], which [long] accepts after the digits. *)
Fixpoint drop_long_suffix (s : string) : string :=
  match s with
  | EmptyString => EmptyString
  | String c EmptyString =>
      if Ascii.eqb c "L" || Ascii.eqb c "l" then EmptyString else s
  | String c s' => String c (drop_long_suffix s')
  end.

(** [long(s)] for a string [s], in base ten: surrounding whitespace is
    skipped, then an optional sign and the whitespace that follows it, then
    decimal digits (at least one) and an optional [L]; anything else raises
    [ValueError]. *)
Definition long {cpv} (s : string) : result (exn cpv) Z :=
  let s1 := strip s in
  let '(negative, s2) :=
    match s1 with
    | String "-" r => (true, r)
    | String "+" r => (false, r)
    | _ => (false, s1)
    end in
  match NilZero.uint_of_string (drop_long_suffix (lstrip s2)) with
  | Some d => Ok (if negative then - Z.of_uint d else Z.of_uint d)%Z
  | None => Raise ValueError
  end.

(** [l[i]] for a non-negative index. *)
Definition index {cpv A} (l : list A) (i : nat) : result (exn cpv) A :=
  match l !! i with
  | Some x => Ok x
  | None => Raise IndexError
  end.

(** [xrange(0, stop, step)] for a positive [step]. *)
Definition xrange (stop step : nat) : list nat :=
  (λ i, i * step) <$> seq 0 ((stop + step - 1) / step).

(** *** The eclass codec *)

(** An eclass dictionary: name to (path, modification time). *)
Abbreviation eclass_map := (gmap string (string * Z)).

(** The values a metadata record holds: strings, and under [_eclasses_] an
    eclass dictionary. *)
Inductive value : Type :=
| VStr (s : string)
| VEclasses (m : eclass_map).

(** ["%s\t%s\t%s" % (k, v[0], v[1])] *)
Definition format_entry (kv : string * (string * Z)) : string :=
  kv.1 +:+ String tab (kv.2.1 +:+ String tab (str_of_int kv.2.2)).

(** [deconstruct_eclasses] on the items in the order [iteritems()] yields
    them. *)
Definition deconstruct_items (items : list (string * (string * Z))) : string :=
  join_tab (format_entry <$> items).

(** [deconstruct_eclasses(eclass_dict)] *)
Definition deconstruct_eclasses (eclass_dict : eclass_map) : string :=
  deconstruct_items (map_to_list eclass_dict).

Section reconstruct.
Context {cpv : Type}.

(** A [for x in xs] loop whose body may raise. *)
Fixpoint for_in {A S} (xs : list A) (body : S → A → result (exn cpv) S) (s : S)
  : result (exn cpv) S :=
  match xs with
  | [] => Ok s
  | x :: xs' => s' ← body s x; for_in xs' body s'
  end.

(** [d[eclasses[x]] = (eclasses[x + 1], long(eclasses[x + 2]))] *)
Definition store_triple (eclasses : list string) (d : eclass_map) (x : nat)
  : result (exn cpv) eclass_map :=
  path ← index eclasses (x + 1);
  mtime_str ← index eclasses (x + 2);
  mtime ← long mtime_str;
  name ← index eclasses x;
  Ok (<[name := (path, mtime)]> d).

(** [d[eclasses[x]] = ('', long(eclasses[x + 1]))] *)
Definition store_pair (eclasses : list string) (d : eclass_map) (x : nat)
  : result (exn cpv) eclass_map :=
  mtime_str ← index eclasses (x + 1);
  mtime ← long mtime_str;
  name ← index eclasses x;
  Ok (<[name := (EmptyString, mtime)]> d).

(** Lines 181 to 190: the value of [paths], or the [CacheCorruption]. *)
Definition choose_paths (c : cpv) (eclasses : list string)
  : result (exn cpv) bool :=
  let l := length eclasses in
  if (l mod 3 =? 0)%nat then Ok true
  else if (l mod 2 =? 0)%nat then
    second ← index eclasses 1; Ok (negb (isdigit second))
  else Raise (CacheCorruption c (InvalidLen l)).

(** Lines 191 to 198: the body of the [try]. *)
Definition fill_dict (paths : bool) (eclasses : list string)
  : result (exn cpv) eclass_map :=
  if paths then for_in (xrange (length eclasses) 3) (store_triple eclasses) ∅
  else for_in (xrange (length eclasses) 2) (store_pair eclasses) ∅.

(** [except ValueError: raise errors.CacheCorruption(...)] *)
Definition except_ValueError {A} (c : cpv) (eclass_string : string)
    (r : result (exn cpv) A) : result (exn cpv) A :=
  match r with
  | Raise ValueError => Raise (CacheCorruption c (ValueErrorReading eclass_string))
  | _ => r
  end.

(** [reconstruct_eclasses(cpv, eclass_string)] *)
Definition reconstruct_eclasses (c : cpv) (eclass_string : value)
  : result (exn cpv) eclass_map :=
  match eclass_string with
  | VEclasses _ => Raise TypeError
  | VStr s =>
      let eclasses := split_tab (strip s) in
      if decide (eclasses = [EmptyString]) then Ok ∅
      else
        paths ← choose_paths c eclasses;
        except_ValueError c s (fill_dict paths eclasses)
  end.

End reconstruct.

(** *** Conditions on strings and dictionaries *)

Definition tab_free (s : string) : bool :=
  string_forallb (λ c, negb (Ascii.eqb c tab)) s.

(** The first character exists and is not whitespace. *)
Definition starts_nonspace (s : string) : bool :=
  match s with
  | EmptyString => false
  | String c _ => negb (is_space c)
  end.

(** The last character exists and is not whitespace. *)
Fixpoint ends_nonspace (s : string) : bool :=
  match s with
  | EmptyString => false
  | String c EmptyString => negb (is_space c)
  | String _ s' => ends_nonspace s'
  end.

(** The three tokens of an entry, and the token list of a sequence of
    items. *)
Definition entry_tokens (kv : string * (string * Z)) : list string :=
  [kv.1; kv.2.1; str_of_int kv.2.2].

Definition tokens (items : list (string * (string * Z))) : list string :=
  items ≫= entry_tokens.

(** The dictionary the decoding loop builds from the items, in order. *)
Definition store_items (d : eclass_map) (items : list (string * (string * Z)))
  : eclass_map :=
  foldl (λ d kv, <[kv.1 := kv.2]> d) d items.

(** The modification times are non-negative integers. *)
Definition mtimes_nonneg (m : eclass_map) : Prop :=
  map_Forall (λ _ v, (0 ≤ v.2)%Z) m.

(** The path strings do not contain the separator. *)
Definition paths_tab_free (m : eclass_map) : Prop :=
  map_Forall (λ _ v, tab_free v.1 = true) m.

(** The names do not contain the separator and start with a character that
    is not whitespace. *)
Definition names_clean (m : eclass_map) : Prop :=
  map_Forall (λ k _, tab_free k = true ∧ starts_nonspace k = true) m.

Definition item_clean (kv : string * (string * Z)) : Prop :=
  (tab_free kv.1 = true ∧ starts_nonspace kv.1 = true) ∧
  tab_free kv.2.1 = true ∧ (0 ≤ kv.2.2)%Z.

(** The legacy layout in the words of the specification: the tokens are
    (name, modification time) pairs, the path defaults to the empty string
    and the time must parse as an integer. *)
Fixpoint two_field_items {cpv} (ts : list string)
  : result (exn cpv) (list (string * (string * Z))) :=
  match ts with
  | name :: mtime_str :: rest =>
      mtime ← long mtime_str;
      items ← two_field_items rest;
      Ok ((name, (EmptyString, mtime)) :: items)
  | _ => Ok []
  end.

(** Decoding in that layout: a later pair of a name overwrites an earlier
    one, and a time that does not parse is a [CacheCorruption] that carries
    the raw string. *)
Definition two_field_layout {cpv} (c : cpv) (eclass_string : string)
    (ts : list string) : result (exn cpv) eclass_map :=
  match two_field_items (cpv := cpv) ts with
  | Ok items => Ok (list_to_map (reverse items))
  | Raise _ => Raise (CacheCorruption c (ValueErrorReading eclass_string))
  end.

(** *** Metadata records and [ProtectedDict] *)

(** A metadata record: a dictionary from keys to values. *)
Abbreviation record := (gmap string value).

(** Python truth of a value: the empty string and the empty dictionary are
    false. *)
Definition truthy (v : value) : bool :=
  match v with
  | VStr s => negb (bool_decide (s = EmptyString))
  | VEclasses m => negb (bool_decide (m = ∅))
  end.

(** [snakeoil.mappings.ProtectedDict], which the cache imports from the
    snakeoil library: a wrapper that keeps changes to a dictionary in a second
    dictionary [new] and the deleted keys in [blacklist]; [orig] is the
    wrapped dictionary itself, not a copy.  The methods below follow the
    class as snakeoil defines it. *)
Record ProtectedDict : Type := {
  orig : record;
  new : record;
  blacklist : gset string;
}.

(** [ProtectedDict(values)] *)
Definition ProtectedDict_init (values : record) : ProtectedDict :=
  {| orig := values; new := ∅; blacklist := ∅ |}.

Section protected_dict.
Context {cpv : Type}.

(** [d[key]] *)
Definition pd_getitem (key : string) (d : ProtectedDict)
  : result (exn cpv) value :=
  match new d !! key with
  | Some v => Ok v
  | None =>
      if decide (key ∈ blacklist d) then Raise (KeyError key)
      else match orig d !! key with
           | Some v => Ok v
           | None => Raise (KeyError key)
           end
  end.

(** [d[key] = val] *)
Definition pd_setitem (key : string) (val : value) (d : ProtectedDict)
  : ProtectedDict :=
  {| orig := orig d;
     new := <[key := val]> (new d);
     blacklist := blacklist d ∖ {[key]} |}.

(** [del d[key]] *)
Definition pd_delitem (key : string) (d : ProtectedDict)
  : result (exn cpv) ProtectedDict :=
  if decide (key ∈ dom (new d)) then
    Ok {| orig := orig d;
          new := delete key (new d);
          blacklist := {[key]} ∪ blacklist d |}
  else if decide (key ∈ dom (orig d) ∧ key ∉ blacklist d) then
    Ok {| orig := orig d; new := new d; blacklist := {[key]} ∪ blacklist d |}
  else Raise (KeyError key).

(** [key in d] *)
Definition pd_contains (key : string) (d : ProtectedDict) : bool :=
  bool_decide (key ∈ dom (new d)) ||
  (negb (bool_decide (key ∈ blacklist d)) && bool_decide (key ∈ dom (orig d))).

(** The loop [for k in d.iterkeys(): if not d[k]: del d[k]] over the keys
    [ks] that [iterkeys] takes from [orig]; the generator yields a key only if
    it is neither blacklisted nor in [new] when its turn comes.  The result is
    paired with [d] as the loop left it. *)
Fixpoint cleanse (ks : list string) (d : ProtectedDict)
  : result (exn cpv) unit * ProtectedDict :=
  match ks with
  | [] => (Ok (), d)
  | k :: ks' =>
      if decide (k ∈ blacklist d ∨ k ∈ dom (new d)) then cleanse ks' d
      else match pd_getitem k d with
           | Raise e => (Raise e, d)
           | Ok v =>
               if truthy v then cleanse ks' d
               else match pd_delitem k d with
                    | Raise e => (Raise e, d)
                    | Ok d' => cleanse ks' d'
                    end
           end
  end.

(** [d["_eclasses_"] = self.deconstruct_eclasses(d["_eclasses_"])]; a string
    has no [iteritems]. *)
Definition serialize (d : ProtectedDict)
  : result (exn cpv) unit * ProtectedDict :=
  match pd_getitem "_eclasses_" d with
  | Raise e => (Raise e, d)
  | Ok (VStr _) => (Raise AttributeError, d)
  | Ok (VEclasses m) =>
      (Ok (), pd_setitem "_eclasses_" (VStr (deconstruct_eclasses m)) d)
  end.

End protected_dict.

(** The object bound to [d] in [__setitem__]: the caller's dictionary
    itself, or a [ProtectedDict] around it. *)
Inductive mapping : Type :=
| Plain (values : record)
| Protected (d : ProtectedDict).

(** The content of the caller's dictionary, which [d] is or wraps. *)
Definition underlying (d : mapping) : record :=
  match d with
  | Plain values => values
  | Protected d => orig d
  end.

(** A write through the mapping interface. *)
Inductive dict_op : Type :=
| SetItem (key : string) (val : value)
| DelItem (key : string).

(** The effect of a write on the object it is applied to: a plain dictionary
    is changed in place, a [ProtectedDict] records the change.  A [del] of a
    missing key changes nothing. *)
Definition apply_op (d : mapping) (op : dict_op) : mapping :=
  match d, op with
  | Plain values, SetItem k v => Plain (<[k := v]> values)
  | Plain values, DelItem k => Plain (delete k values)
  | Protected d, SetItem k v => Protected (pd_setitem k v d)
  | Protected d, DelItem k =>
      match pd_delitem (cpv := unit) k d with
      | Ok d' => Protected d'
      | Raise _ => Protected d
      end
  end.

(** *** The codec on sample inputs *)

Example reconstruct_legacy :
  reconstruct_eclasses () (VStr (join_tab ["libtool"; "1234"; "eutils"; "5678"]))
  = Ok (<["eutils" := ("", 5678%Z)]> (<["libtool" := ("", 1234%Z)]> ∅)).
Proof. by vm_compute. Qed.

(** [long] skips the whitespace around the number and after the sign, and
    accepts one trailing [L]. *)
Example long_samples :
  long (cpv := ()) "- 5" = Ok (-5)%Z ∧ long (cpv := ()) " +7L " = Ok 7%Z ∧
  long (cpv := ()) "5 L" = Raise ValueError ∧
  long (cpv := ()) "-" = Raise ValueError ∧
  long (cpv := ()) "" = Raise ValueError.
Proof. split_and!; by vm_compute. Qed.

Example reconstruct_five_tokens :
  reconstruct_eclasses () (VStr (join_tab ["a"; "b"; "c"; "d"; "e"]))
  = Raise (CacheCorruption () (InvalidLen 5)).
Proof. by vm_compute. Qed.

(** *** Strings: splitting what was joined *)

Lemma append_nil (b : string) : EmptyString +:+ b = b.
Proof. done. Qed.

Lemma append_cons (c : ascii) (a b : string) :
  String c a +:+ b = String c (a +:+ b).
Proof. done. Qed.

Lemma append_assoc (a b c : string) : (a +:+ b) +:+ c = a +:+ (b +:+ c).
Proof.
  induction a as [|x a IH]; [done|]. rewrite !append_cons. by rewrite IH.
Qed.

Lemma string_forallb_impl (f g : ascii → bool) s :
  (∀ c, f c = true → g c = true) →
  string_forallb f s = true → string_forallb g s = true.
Proof.
  intros Hfg. induction s as [|c s IH]; simpl; [done|].
  intros [Hc Hs]%andb_true_iff. by rewrite (Hfg c Hc), IH.
Qed.

Lemma split_tab_tab_free t : tab_free t = true → split_tab t = [t].
Proof.
  induction t as [|c t IH]; simpl; [done|].
  intros [Hc Ht]%andb_true_iff. apply negb_true_iff in Hc.
  rewrite Hc. by rewrite IH.
Qed.

Lemma split_tab_append t s :
  tab_free t = true → split_tab (t +:+ String tab s) = t :: split_tab s.
Proof.
  induction t as [|c t IH]; [by rewrite append_nil|].
  rewrite append_cons; simpl.
  intros [Hc Ht]%andb_true_iff. apply negb_true_iff in Hc.
  rewrite Hc. by rewrite IH.
Qed.

Lemma split_join ts :
  ts ≠ [] → Forall (λ t, tab_free t = true) ts →
  split_tab (join_tab ts) = ts.
Proof.
  induction ts as [|t ts IH]; [done|]. intros _ Hts.
  apply Forall_cons in Hts as [Ht Hts].
  destruct ts as [|t' ts]; simpl.
  - by apply split_tab_tab_free.
  - rewrite split_tab_append by done. f_equal. by apply IH.
Qed.

Lemma join_tab_cons t ts :
  ts ≠ [] → join_tab (t :: ts) = t +:+ String tab (join_tab ts).
Proof. by destruct ts. Qed.

Lemma lstrip_starts_nonspace s : starts_nonspace s = true → lstrip s = s.
Proof. destruct s as [|c s]; simpl; [done|]. by intros ->%negb_true_iff. Qed.

Lemma rstrip_ends_nonspace s : ends_nonspace s = true → rstrip s = s.
Proof.
  induction s as [|c s IH]; [done|]. simpl.
  destruct s as [|c' s].
  - simpl. by intros ->%negb_true_iff.
  - intros Hs. rewrite (IH Hs). done.
Qed.

Lemma strip_id s :
  starts_nonspace s = true → ends_nonspace s = true → strip s = s.
Proof.
  intros Hl Hr. unfold strip.
  by rewrite lstrip_starts_nonspace, rstrip_ends_nonspace.
Qed.

Lemma starts_nonspace_append a b :
  starts_nonspace a = true → starts_nonspace (a +:+ b) = true.
Proof. by destruct a. Qed.

Lemma ends_nonspace_append a b :
  ends_nonspace b = true → ends_nonspace (a +:+ b) = true.
Proof.
  intros Hb. induction a as [|c a IH]; [done|].
  rewrite append_cons; simpl.
  by destruct (a +:+ b) eqn:Hab.
Qed.

Lemma starts_nonspace_join t ts :
  starts_nonspace t = true → starts_nonspace (join_tab (t :: ts)) = true.
Proof.
  intros Ht. destruct ts; [done|].
  rewrite join_tab_cons by done. by apply starts_nonspace_append.
Qed.

Lemma ends_nonspace_join ts t :
  ends_nonspace t = true → ends_nonspace (join_tab (ts ++ [t])) = true.
Proof.
  intros Ht. induction ts as [|t' ts IH]; [done|].
  rewrite <- app_comm_cons, join_tab_cons by by destruct ts.
  apply ends_nonspace_append. simpl.
  by destruct (join_tab (ts ++ [t])).
Qed.

(** *** Decimal digits *)

Lemma digits_of_uint d : string_forallb is_digit (NilEmpty.string_of_uint d) = true.
Proof. induction d; simpl; done. Qed.

Lemma digits_tab_free s : string_forallb is_digit s = true → tab_free s = true.
Proof. apply string_forallb_impl. by intros [[|] [|] [|] [|] [|] [|] [|] [|]]. Qed.

Lemma digits_starts_nonspace s :
  s ≠ EmptyString → string_forallb is_digit s = true → starts_nonspace s = true.
Proof.
  destruct s as [|c s]; [done|]. simpl. intros _ [Hc _]%andb_true_iff.
  by destruct c as [[|] [|] [|] [|] [|] [|] [|] [|]].
Qed.

Lemma digits_ends_nonspace s :
  s ≠ EmptyString → string_forallb is_digit s = true → ends_nonspace s = true.
Proof.
  induction s as [|c s IH]; [done|]. intros _ [Hc Hs]%andb_true_iff.
  destruct s as [|c' s]; simpl.
  - by destruct c as [[|] [|] [|] [|] [|] [|] [|] [|]].
  - by apply IH.
Qed.

Lemma digits_drop_long_suffix s :
  string_forallb is_digit s = true → drop_long_suffix s = s.
Proof.
  induction s as [|c s IH]; [done|]. intros [Hc Hs]%andb_true_iff.
  destruct s as [|c' s].
  - by destruct c as [[|] [|] [|] [|] [|] [|] [|] [|]].
  - change (String c (drop_long_suffix (String c' s)) = String c (String c' s)).
    by rewrite IH.
Qed.

(** The decimal digits of a non-negative integer. *)
Lemma str_of_int_digits n :
  (0 ≤ n)%Z →
  ∃ d, d ≠ Decimal.Nil ∧ str_of_int n = NilEmpty.string_of_uint d ∧
       Z.of_uint d = n.
Proof.
  intros Hn. unfold str_of_int. pose proof (DecimalZ.of_to n) as Hz.
  destruct n as [|p|p]; [| |lia].
  - by exists (Decimal.D0 Decimal.Nil).
  - exists (Pos.to_uint p). simpl in *.
    pose proof (Unsigned.to_uint_nonnil p) as Hnil. split_and!; [done| |done].
    by destruct (Pos.to_uint p).
Qed.

Lemma string_of_uint_nonempty d :
  d ≠ Decimal.Nil → NilEmpty.string_of_uint d ≠ EmptyString.
Proof. by destruct d. Qed.

Lemma long_digits {cpv} d :
  d ≠ Decimal.Nil →
  long (cpv := cpv) (NilEmpty.string_of_uint d) = Ok (Z.of_uint d).
Proof.
  intros Hd. pose proof (digits_of_uint d) as Hdig.
  pose proof (string_of_uint_nonempty d Hd) as Hne.
  unfold long.
  rewrite strip_id by auto using digits_starts_nonspace, digits_ends_nonspace.
  assert ((match NilEmpty.string_of_uint d with
           | String "-" r => (true, r)
           | String "+" r => (false, r)
           | _ => (false, NilEmpty.string_of_uint d)
           end) = (false, NilEmpty.string_of_uint d)) as ->.
  { destruct (NilEmpty.string_of_uint d) as [|c r]; [done|].
    apply andb_true_iff in Hdig as [Hc _].
    by destruct c as [[|] [|] [|] [|] [|] [|] [|] [|]]. }
  rewrite lstrip_starts_nonspace by auto using digits_starts_nonspace.
  rewrite digits_drop_long_suffix by done.
  assert (NilZero.uint_of_string (NilEmpty.string_of_uint d) = Some d) as ->.
  { unfold NilZero.uint_of_string.
    destruct (NilEmpty.string_of_uint d) eqn:Hs; [done|].
    rewrite <- Hs. apply NilEmpty.usu. }
  done.
Qed.

Lemma long_str_of_int {cpv} n :
  (0 ≤ n)%Z → long (cpv := cpv) (str_of_int n) = Ok n.
Proof.
  intros (d & Hd & -> & <-)%str_of_int_digits. by apply long_digits.
Qed.

(** *** Decoding what was encoded *)

Lemma tokens_cons kv items : tokens (kv :: items) = entry_tokens kv ++ tokens items.
Proof. done. Qed.

Lemma tokens_app l k : tokens (l ++ k) = tokens l ++ tokens k.
Proof. apply bind_app. Qed.

Lemma length_tokens items : length (tokens items) = length items * 3.
Proof.
  induction items as [|kv items IH]; [done|].
  rewrite tokens_cons, length_app, IH. simpl. lia.
Qed.

Lemma tokens_lookup pre kv rest j :
  j < 3 →
  tokens (pre ++ kv :: rest) !! (length pre * 3 + j) = entry_tokens kv !! j.
Proof.
  intros Hj. rewrite tokens_app, tokens_cons.
  rewrite lookup_app_r by (rewrite length_tokens; lia).
  rewrite length_tokens.
  replace (length pre * 3 + j - length pre * 3) with j by lia.
  by apply lookup_app_l.
Qed.

Lemma deconstruct_items_tokens items :
  deconstruct_items items = join_tab (tokens items).
Proof.
  unfold deconstruct_items.
  induction items as [|kv items IH]; [done|].
  destruct items as [|kv' items]; [done|].
  rewrite fmap_cons, join_tab_cons by done. rewrite IH, (tokens_cons kv).
  assert (tokens (kv' :: items) ≠ []) as Hrest.
  { intros Hnil%(f_equal length). rewrite length_tokens in Hnil. simpl in Hnil. lia. }
  clear IH. revert Hrest. generalize (tokens (kv' :: items)). intros rest Hrest.
  unfold entry_tokens, format_entry.
  change ([kv.1; kv.2.1; str_of_int kv.2.2] ++ rest)
    with (kv.1 :: kv.2.1 :: str_of_int kv.2.2 :: rest).
  rewrite !join_tab_cons by done.
  by rewrite !append_assoc, !append_cons, !append_assoc, !append_cons.
Qed.

Lemma tokens_tab_free items :
  Forall item_clean items → Forall (λ t, tab_free t = true) (tokens items).
Proof.
  induction 1 as [|kv items ([Hk _] & Hp & Ht) _ IH]; [constructor|].
  rewrite tokens_cons. apply Forall_app. split; [|done].
  repeat constructor; try done.
  destruct (str_of_int_digits _ Ht) as (d & _ & -> & _).
  apply digits_tab_free, digits_of_uint.
Qed.

Lemma str_of_int_ends_nonspace n : (0 ≤ n)%Z → ends_nonspace (str_of_int n) = true.
Proof.
  intros (d & Hd & -> & _)%str_of_int_digits.
  apply digits_ends_nonspace; auto using string_of_uint_nonempty, digits_of_uint.
Qed.

Lemma strip_join_tokens items :
  Forall item_clean items → strip (join_tab (tokens items)) = join_tab (tokens items).
Proof.
  intros Hitems. destruct items as [|kv items]; [done|].
  apply strip_id.
  - rewrite tokens_cons. apply starts_nonspace_join.
    apply Forall_cons in Hitems as [([_ Hk] & _) _]. done.
  - destruct (tokens (kv :: items)) as [|t ts _] eqn:Htok using rev_ind.
    { apply (f_equal length) in Htok. rewrite length_tokens in Htok. simpl in Htok. lia. }
    apply ends_nonspace_join.
    destruct items as [|kv' items _] using rev_ind.
    + change (tokens [kv]) with ([kv.1; kv.2.1] ++ [str_of_int kv.2.2]) in Htok.
      apply app_inj_tail in Htok as [_ <-].
      apply Forall_cons in Hitems as [(_ & _ & Ht) _].
      by apply str_of_int_ends_nonspace.
    + rewrite app_comm_cons, tokens_app in Htok.
      change (tokens [kv']) with ([kv'.1; kv'.2.1] ++ [str_of_int kv'.2.2]) in Htok.
      rewrite app_assoc in Htok. apply app_inj_tail in Htok as [_ <-].
      apply Forall_cons in Hitems as [_ Hitems].
      apply Forall_app in Hitems as [_ Hkv'].
      apply Forall_singleton in Hkv' as (_ & _ & Ht).
      by apply str_of_int_ends_nonspace.
Qed.

Lemma for_in_triples {cpv} pre rest (d : eclass_map) :
  Forall item_clean rest →
  for_in (cpv := cpv) ((λ i, i * 3) <$> seq (length pre) (length rest))
    (store_triple (tokens (pre ++ rest))) d
  = Ok (store_items d rest).
Proof.
  revert pre d. induction rest as [|kv rest IH]; intros pre d Hrest; [done|].
  apply Forall_cons in Hrest as [(_ & _ & Ht) Hrest].
  cbn [length seq fmap list_fmap for_in].
  assert (store_triple (cpv := cpv) (tokens (pre ++ kv :: rest)) d (length pre * 3)
          = Ok (<[kv.1 := kv.2]> d)) as ->.
  { pose proof (tokens_lookup pre kv rest 0) as H0.
    pose proof (tokens_lookup pre kv rest 1) as H1.
    pose proof (tokens_lookup pre kv rest 2) as H2.
    rewrite Nat.add_0_r in H0.
    unfold store_triple, index.
    rewrite H1 by lia; simpl. rewrite H2 by lia; simpl.
    rewrite long_str_of_int by done; simpl.
    rewrite H0 by lia; simpl. by destruct kv as [k [p t]]. }
  simpl.
  specialize (IH (pre ++ [kv]) (<[kv.1 := kv.2]> d) Hrest).
  rewrite length_app, Nat.add_1_r, <- app_assoc in IH. done.
Qed.

Lemma xrange_tokens items :
  xrange (length (tokens items)) 3 = (λ i, i * 3) <$> seq 0 (length items).
Proof.
  unfold xrange. rewrite length_tokens. do 2 f_equal.
  replace (length items * 3 + 3 - 1) with (2 + length items * 3) by lia.
  rewrite Nat.div_add by done. done.
Qed.

Lemma store_items_list_to_map items :
  store_items ∅ items = list_to_map (reverse items).
Proof.
  induction items as [|kv items IH] using rev_ind; [done|].
  unfold store_items in *. rewrite foldl_snoc, IH, reverse_snoc.
  by destruct kv.
Qed.

Lemma store_items_listing (m : eclass_map) items :
  items ≡ₚ map_to_list m → store_items ∅ items = m.
Proof.
  intros Hperm. rewrite store_items_list_to_map.
  etrans; [|apply list_to_map_to_list].
  apply list_to_map_proper.
  - rewrite reverse_Permutation, Hperm. apply NoDup_fst_map_to_list.
  - by rewrite reverse_Permutation.
Qed.

Lemma reconstruct_deconstruct_items {cpv} (c : cpv) (m : eclass_map) items :
  items ≡ₚ map_to_list m → Forall item_clean items →
  reconstruct_eclasses c (VStr (deconstruct_items items)) = Ok m.
Proof.
  intros Hperm Hclean. unfold reconstruct_eclasses.
  rewrite deconstruct_items_tokens.
  destruct items as [|kv items].
  { symmetry in Hperm. apply Permutation_nil_r, map_to_list_empty_iff in Hperm.
    by subst. }
  rewrite strip_join_tokens by done.
  set (its := kv :: items) in *.
  assert (length (tokens its) = length its * 3) as Hlen by apply length_tokens.
  rewrite split_join; [|by destruct (tokens its)|by apply tokens_tab_free].
  rewrite decide_False by (intros Heq; rewrite Heq in Hlen; simpl in Hlen; lia).
  unfold choose_paths.
  assert ((length (tokens its) mod 3 =? 0) = true) as ->
    by (by rewrite Hlen, Nat.Div0.mod_mul).
  unfold mbind at 1, result_bind at 1, fill_dict. rewrite xrange_tokens.
  pose proof (for_in_triples (cpv := cpv) [] its ∅ Hclean) as Hloop.
  change (length []) with 0 in Hloop. change ([] ++ its) with its in Hloop.
  rewrite Hloop. unfold except_ValueError.
  by rewrite (store_items_listing m).
Qed.

(** C2 (amended): for every eclass dictionary whose modification times are
    non-negative, whose paths contain no tab, and whose names contain no tab
    and start with a character that is not whitespace, and for every
    coordinate, decoding the encoding gives the dictionary back, in whatever
    order the encoder visits the items. *)
Theorem reconstruct_deconstruct {cpv} (c : cpv) (m : eclass_map) :
  mtimes_nonneg m → paths_tab_free m → names_clean m →
  reconstruct_eclasses c (VStr (deconstruct_eclasses m)) = Ok m ∧
  ∀ items, items ≡ₚ map_to_list m →
    reconstruct_eclasses c (VStr (deconstruct_items items)) = Ok m.
Proof.
  intros Htimes Hpaths Hnames.
  assert (∀ items, items ≡ₚ map_to_list m →
          reconstruct_eclasses c (VStr (deconstruct_items items)) = Ok m) as Hall.
  { intros items Hperm. apply reconstruct_deconstruct_items; [done|].
    apply Forall_forall. intros [k v] Hin. rewrite Hperm in Hin.
    apply elem_of_map_to_list in Hin.
    unfold item_clean; simpl.
    split; [exact (Hnames k v Hin)|].
    split; [exact (Hpaths k v Hin)|exact (Htimes k v Hin)]. }
  split; [|done]. by apply Hall.
Qed.

(** C2 fails as stated: a name that starts with a space comes back without
    it, and an empty name leaves a single token, which is refused. *)
Lemma roundtrip_broken_by_names :
  (mtimes_nonneg {[" a" := ("p", 1%Z)]} ∧ paths_tab_free {[" a" := ("p", 1%Z)]} ∧
   reconstruct_eclasses () (VStr (deconstruct_eclasses {[" a" := ("p", 1%Z)]}))
   = Ok {["a" := ("p", 1%Z)]} ∧
   ({["a" := ("p", 1%Z)]} : eclass_map) ≠ {[" a" := ("p", 1%Z)]}) ∧
  (mtimes_nonneg {["" := ("", 5%Z)]} ∧ paths_tab_free {["" := ("", 5%Z)]} ∧
   reconstruct_eclasses () (VStr (deconstruct_eclasses {["" := ("", 5%Z)]}))
   = Raise (CacheCorruption () (InvalidLen 1))).
Proof.
  split_and!; try (by apply map_Forall_singleton); by vm_compute.
Qed.

Lemma reconstruct_deconstruct_witness :
  reconstruct_eclasses "dev-lang/python-2.7"
    (VStr (deconstruct_eclasses
             (<["eutils" := ("/usr/portage/eclass", 1199145600%Z)]>
                {["libtool" := ("", 0%Z)]})))
  = Ok (<["eutils" := ("/usr/portage/eclass", 1199145600%Z)]>
          {["libtool" := ("", 0%Z)]}).
Proof.
  refine (proj1 (reconstruct_deconstruct "dev-lang/python-2.7" _ _ _ _));
    (apply map_Forall_insert_2; [|apply map_Forall_singleton]); by vm_compute.
Defined.

(** *** Token counts that are even and not a multiple of three *)

Lemma bind_Ok {E A B} (a : A) (f : A → result E B) : (Ok a ≫= f) = f a.
Proof. done. Qed.

Lemma index_raise {cpv A} (l : list A) i (e : exn cpv) :
  index l i = Raise e → e = IndexError.
Proof. unfold index. destruct (l !! i); by intros [=]. Qed.

Lemma long_raise {cpv} s (e : exn cpv) : long s = Raise e → e = ValueError.
Proof.
  unfold long. destruct (match strip s with
                         | String "-" r => (true, r)
                         | String "+" r => (false, r)
                         | _ => (false, strip s)
                         end) as [negative s2].
  destruct (NilZero.uint_of_string _); by intros [=].
Qed.

Lemma for_in_app {cpv A S} (xs ys : list A)
    (body : S → A → result (exn cpv) S) s :
  for_in (xs ++ ys) body s = (s' ← for_in xs body s; for_in ys body s').
Proof.
  revert s. induction xs as [|x xs IH]; intros s; [done|].
  cbn [app for_in]. destruct (body s x) as [s'|e]; [|done].
  rewrite !bind_Ok. apply IH.
Qed.

Lemma store_triple_short {cpv} eclasses d x :
  length eclasses ≤ x + 2 → store_triple (cpv := cpv) eclasses d x = Raise IndexError.
Proof.
  intros Hlen. unfold store_triple, index.
  rewrite (lookup_ge_None_2 eclasses (x + 2)) by done.
  by destruct (eclasses !! (x + 1)).
Qed.

Lemma xrange_3_snoc n :
  n mod 3 ≠ 0 → xrange n 3 = xrange (n / 3 * 3) 3 ++ [n / 3 * 3].
Proof.
  intros Hmod. unfold xrange.
  pose proof (Nat.div_mod_eq n 3) as Hn.
  pose proof (Nat.mod_upper_bound n 3) as Hlt.
  replace ((n + 3 - 1) / 3) with (S (n / 3)).
  - replace ((n / 3 * 3 + 3 - 1) / 3) with (n / 3).
    + by rewrite seq_S, fmap_app.
    + apply (Nat.div_unique _ 3 _ 2); lia.
  - apply (Nat.div_unique _ 3 _ (n mod 3 - 1)); lia.
Qed.

Lemma xrange_whole_triples n :
  xrange (n / 3 * 3) 3 = (λ i, i * 3) <$> seq 0 (n / 3).
Proof.
  unfold xrange. do 2 f_equal. symmetry.
  apply (Nat.div_unique _ 3 _ 2); lia.
Qed.

Lemma xrange_even n : n mod 2 = 0 → xrange n 2 = (λ i, i * 2) <$> seq 0 (n / 2).
Proof.
  intros Hmod. unfold xrange. do 2 f_equal.
  pose proof (Nat.div_mod_eq n 2) as Hn. symmetry.
  apply (Nat.div_unique _ 2 _ 1); lia.
Qed.

(** The two-field loop reads the tokens pair by pair. *)
Lemma store_pair_at {cpv} pre name mtime_str rest (d : eclass_map) :
  store_pair (cpv := cpv) (pre ++ name :: mtime_str :: rest) d (length pre)
  = (mtime ← long mtime_str; Ok (<[name := (EmptyString, mtime)]> d)).
Proof.
  assert ((pre ++ name :: mtime_str :: rest) !! (length pre + 1)
          = Some mtime_str) as H1.
  { rewrite lookup_app_r by lia.
    by replace (length pre + 1 - length pre) with 1 by lia. }
  assert ((pre ++ name :: mtime_str :: rest) !! length pre = Some name) as H0
    by (by rewrite lookup_app_r, Nat.sub_diag by lia).
  unfold store_pair, index. rewrite H1, H0, bind_Ok.
  destruct (long mtime_str) as [mtime|e]; [|done].
  by rewrite !bind_Ok.
Qed.

Lemma for_in_pairs_items {cpv} m : ∀ k pre rest (d : eclass_map),
  length pre = k * 2 → length rest = m * 2 →
  for_in (cpv := cpv) ((λ i, i * 2) <$> seq k m) (store_pair (pre ++ rest)) d
  = (items ← two_field_items rest; Ok (store_items d items)).
Proof.
  induction m as [|m IH]; intros k pre rest d Hpre Hrest.
  { by destruct rest. }
  destruct rest as [|name [|mtime_str rest]]; [done|simpl in Hrest; lia|].
  cbn [seq fmap list_fmap for_in two_field_items].
  rewrite <- Hpre, store_pair_at.
  destruct (long mtime_str) as [mtime|e]; [|done].
  rewrite !bind_Ok.
  specialize (IH (S k) (pre ++ [name; mtime_str]) rest
                (<[name := (EmptyString, mtime)]> d)).
  rewrite <- app_assoc in IH. cbn [app] in IH.
  rewrite IH; [|rewrite length_app; simpl; lia|simpl in Hrest; lia].
  by destruct (two_field_items rest).
Qed.

Lemma two_field_items_raise {cpv} m : ∀ ts (e : exn cpv),
  length ts = m * 2 → two_field_items ts = Raise e → e = ValueError.
Proof.
  induction m as [|m IH]; intros ts e Hlen.
  { by destruct ts. }
  destruct ts as [|name [|mtime_str rest]]; [done|done|].
  cbn [two_field_items].
  destruct (long mtime_str) as [mtime|e'] eqn:Hl.
  - rewrite bind_Ok.
    destruct (two_field_items rest) as [items|e''] eqn:Hr; [done|].
    intros [= <-]. eapply IH; [|done]. simpl in Hlen. lia.
  - intros [= <-]. by eapply long_raise.
Qed.

(** On an even number of tokens the two-field branch of the code decodes as
    the specification's legacy layout does. *)
Lemma decode_two_field {cpv} (c : cpv) s eclasses :
  length eclasses mod 2 = 0 →
  except_ValueError c s (fill_dict false eclasses) = two_field_layout c s eclasses.
Proof.
  intros Hmod. unfold fill_dict, two_field_layout. rewrite xrange_even by done.
  pose proof (Nat.div_mod_eq (length eclasses) 2) as Hn.
  pose proof (for_in_pairs_items (cpv := cpv) (length eclasses / 2) 0 []
                eclasses ∅ eq_refl) as Hloop.
  cbn [app] in Hloop. rewrite Hloop by lia.
  destruct (two_field_items eclasses) as [items|e] eqn:Hitems.
  - rewrite bind_Ok. unfold except_ValueError.
    by rewrite store_items_list_to_map.
  - apply (two_field_items_raise (length eclasses / 2)) in Hitems as ->; [done|lia].
Qed.

(** The three-field loop over the complete triples: it ends in [ValueError]
    at a third token that [long] does not read, and returns otherwise. *)
Lemma for_in_whole_triples {cpv} eclasses m (d : eclass_map) :
  m * 3 ≤ length eclasses →
  match for_in (cpv := cpv) ((λ i, i * 3) <$> seq 0 m) (store_triple eclasses) d with
  | Ok _ =>
      ∀ i t, i < m → eclasses !! (i * 3 + 2) = Some t →
             ∃ z, long (cpv := cpv) t = Ok z
  | Raise e =>
      e = ValueError ∧
      ∃ i t, eclasses !! (i * 3 + 2) = Some t ∧ long (cpv := cpv) t = Raise ValueError
  end.
Proof.
  induction m as [|m IH]; intros Hlen.
  { cbn [seq fmap list_fmap for_in]. intros i t Hi. lia. }
  rewrite seq_S, fmap_app, for_in_app.
  specialize (IH ltac:(lia)).
  destruct (for_in _ (store_triple eclasses) d) as [d'|e]; [|done].
  rewrite bind_Ok. cbn [Nat.add fmap list_fmap for_in].
  unfold store_triple, index.
  destruct (lookup_lt_is_Some_2 eclasses (m * 3 + 1)) as [p ->]; [lia|].
  destruct (lookup_lt_is_Some_2 eclasses (m * 3 + 2)) as [t Ht]; [lia|].
  destruct (lookup_lt_is_Some_2 eclasses (m * 3)) as [k ->]; [lia|].
  rewrite Ht, !bind_Ok.
  destruct (long t) as [z|e] eqn:Hl.
  - rewrite !bind_Ok. intros i t' Hi Ht'.
    destruct (decide (i = m)) as [->|Hne]; [|apply (IH i); [lia|done]].
    rewrite Ht in Ht'. injection Ht' as <-. by exists z.
  - apply long_raise in Hl as He. subst e. split; [done|]. by exists m, t.
Qed.

(** With a token count that is not a multiple of three the three-field loop
    cannot return: it ends in the [IndexError] of the incomplete last triple
    when [long] reads the third token of every complete triple, and in
    [ValueError] otherwise. *)
Lemma fill_dict_incomplete {cpv} eclasses :
  length eclasses mod 3 ≠ 0 →
  (fill_dict (cpv := cpv) true eclasses = Raise IndexError ∧
   ∀ i t, eclasses !! (i * 3 + 2) = Some t → ∃ z, long (cpv := cpv) t = Ok z) ∨
  (fill_dict (cpv := cpv) true eclasses = Raise ValueError ∧
   ∃ i t, eclasses !! (i * 3 + 2) = Some t ∧ long (cpv := cpv) t = Raise ValueError).
Proof.
  intros Hmod. unfold fill_dict.
  pose proof (Nat.div_mod_eq (length eclasses) 3) as Hn.
  pose proof (Nat.mod_upper_bound (length eclasses) 3) as Hlt.
  rewrite xrange_3_snoc, xrange_whole_triples, for_in_app by done.
  pose proof (for_in_whole_triples (cpv := cpv) eclasses
                (length eclasses / 3) ∅) as Hloop.
  destruct (for_in _ (store_triple eclasses) ∅) as [d'|e].
  - left. rewrite bind_Ok. cbn [for_in].
    rewrite store_triple_short by lia. split; [done|].
    intros i t Ht. apply (Hloop ltac:(lia) i); [|done].
    apply lookup_lt_Some in Ht. lia.
  - right. destruct Hloop as [-> Hex]; [lia|]. done.
Qed.

(** Lines 181 to 198 when the token count is even and not a multiple of
    three. *)
Lemma reconstruct_even_count {cpv} (c : cpv) s second :
  let eclasses := split_tab (strip s) in
  length eclasses mod 3 ≠ 0 → length eclasses mod 2 = 0 →
  eclasses !! 1 = Some second →
  reconstruct_eclasses c (VStr s)
  = except_ValueError c s (fill_dict (negb (isdigit second)) eclasses).
Proof.
  intros eclasses H3 H2 Hsecond.
  unfold reconstruct_eclasses. fold eclasses.
  rewrite decide_False by (intros Heq; by rewrite Heq in H2).
  unfold choose_paths, index.
  rewrite (proj2 (Nat.eqb_neq _ _) H3), (proj2 (Nat.eqb_eq _ _) H2).
  by rewrite Hsecond.
Qed.

(** C4: what the code does when the token count is even and not a multiple
    of three (such a count is never a multiple of six).  The second token is
    inspected.  If it is a string of decimal digits the input is decoded in
    the legacy two-field layout, as the claim says.  If it is not, the
    three-field layout is decoded instead of the two-field one, and with such
    a count that decoding cannot return a dictionary: it ends in
    [IndexError] when [long] reads the third token of every complete triple,
    and in [CacheCorruption] as soon as it does not read one. *)
Theorem even_count_decoding {cpv} (c : cpv) (s : string) :
  let eclasses := split_tab (strip s) in
  length eclasses mod 3 ≠ 0 → length eclasses mod 2 = 0 →
  ∃ second, eclasses !! 1 = Some second ∧
    (isdigit second = true →
     reconstruct_eclasses c (VStr s) = two_field_layout c s eclasses) ∧
    (isdigit second = false →
     ((∀ i t, eclasses !! (i * 3 + 2) = Some t → ∃ z, long (cpv := cpv) t = Ok z) →
      reconstruct_eclasses c (VStr s) = Raise IndexError) ∧
     (∀ i t, eclasses !! (i * 3 + 2) = Some t →
             long (cpv := cpv) t = Raise ValueError →
      reconstruct_eclasses c (VStr s)
      = Raise (CacheCorruption c (ValueErrorReading s)))).
Proof.
  intros eclasses H3 H2.
  assert (2 ≤ length eclasses) as Hlen.
  { destruct eclasses as [|? [|? ?]]; simpl in *; [done|done|lia]. }
  destruct (eclasses !! 1) as [second|] eqn:Hsecond;
    [|apply lookup_ge_None in Hsecond; lia].
  exists second. split; [done|].
  rewrite (reconstruct_even_count c s second H3 H2 Hsecond). fold eclasses.
  split; intros ->; cbv [negb].
  - by apply decode_two_field.
  - destruct (fill_dict_incomplete (cpv := cpv) eclasses H3)
      as [[-> Hall]|[-> (i & t & Ht & Hl)]]; split; try done.
    + intros i t Ht Hl. destruct (Hall i t Ht) as [z Hz]. congruence.
    + intros Hall. destruct (Hall i t Ht) as [z Hz]. congruence.
Qed.

(** C4 at four tokens whose second is [-5]: the legacy layout of the
    specification reads them, the code decodes triples and reports the
    string as corrupt. *)
Lemma even_count_decoding_witness :
  two_field_layout () (join_tab ["a"; "-5"; "b"; "7"]) ["a"; "-5"; "b"; "7"]
  = Ok (<["b" := ("", 7%Z)]> {["a" := ("", (-5)%Z)]}) ∧
  reconstruct_eclasses () (VStr (join_tab ["a"; "-5"; "b"; "7"]))
  = Raise (CacheCorruption ()
             (ValueErrorReading (join_tab ["a"; "-5"; "b"; "7"]))).
Proof.
  split; [by vm_compute|].
  destruct (even_count_decoding () (join_tab ["a"; "-5"; "b"; "7"]))
    as (second & Hsecond & _ & Hthree); [by vm_compute|by vm_compute|].
  vm_compute in Hsecond. injection Hsecond as <-.
  exact (proj2 (Hthree eq_refl) 0 "b" eq_refl eq_refl).
Defined.

(** C3: decoding the two tokens [a] and [b] raises [IndexError], which the
    [except ValueError] clause does not turn into [CacheCorruption]. *)
Theorem reconstruct_two_tokens {cpv} (c : cpv) :
  choose_paths c (split_tab (strip (join_tab ["a"; "b"]))) = Ok true ∧
  reconstruct_eclasses c (VStr (join_tab ["a"; "b"])) = Raise IndexError.
Proof. split; by vm_compute. Qed.

(** *** Further properties of the codec *)

(** The tokens of the legacy layout: name and modification time. *)
Definition legacy_tokens (pairs : list (string * Z)) : list string :=
  pairs ≫= (λ kt, [kt.1; str_of_int kt.2]).

(** A legacy pair as an item, with the empty path. *)
Definition legacy_item (kt : string * Z) : string * (string * Z) :=
  (kt.1, (EmptyString, kt.2)).

Definition pair_clean (kt : string * Z) : Prop :=
  (tab_free kt.1 = true ∧ starts_nonspace kt.1 = true) ∧ (0 ≤ kt.2)%Z.

Lemma lstrip_blank s : string_forallb is_space s = true → lstrip s = EmptyString.
Proof.
  induction s as [|c s IH]; simpl; [done|].
  intros [-> Hs]%andb_true_iff. by apply IH.
Qed.

(** A string of whitespace only, the empty string included, decodes to the
    empty dictionary. *)
Theorem reconstruct_blank {cpv} (c : cpv) s :
  string_forallb is_space s = true → reconstruct_eclasses c (VStr s) = Ok ∅.
Proof.
  intros Hs. unfold reconstruct_eclasses, strip. by rewrite lstrip_blank.
Qed.

Lemma reconstruct_blank_witness :
  reconstruct_eclasses "dev-lang/python-2.7" (VStr (String " " (String tab " ")))
  = Ok ∅.
Proof.
  exact (reconstruct_blank "dev-lang/python-2.7" (String " " (String tab " "))
           eq_refl).
Defined.

Lemma store_triple_in_range {cpv} eclasses d x (e : exn cpv) :
  x + 2 < length eclasses → store_triple eclasses d x = Raise e → e = ValueError.
Proof.
  intros Hx. unfold store_triple, index.
  destruct (lookup_lt_is_Some_2 eclasses (x + 1)) as [p ->]; [lia|].
  destruct (lookup_lt_is_Some_2 eclasses (x + 2)) as [t ->]; [lia|].
  destruct (lookup_lt_is_Some_2 eclasses x) as [k ->]; [lia|]. simpl.
  destruct (long t) as [n|e'] eqn:Hl; simpl; [done|].
  intros [= <-]. by eapply long_raise.
Qed.

Lemma store_pair_in_range {cpv} eclasses d x (e : exn cpv) :
  x + 1 < length eclasses → store_pair eclasses d x = Raise e → e = ValueError.
Proof.
  intros Hx. unfold store_pair, index.
  destruct (lookup_lt_is_Some_2 eclasses (x + 1)) as [t ->]; [lia|].
  destruct (lookup_lt_is_Some_2 eclasses x) as [k ->]; [lia|]. simpl.
  destruct (long t) as [n|e'] eqn:Hl; simpl; [done|].
  intros [= <-]. by eapply long_raise.
Qed.

Lemma for_in_raise {cpv A S} (xs : list A) (body : S → A → result (exn cpv) S)
    (P : exn cpv → Prop) s e :
  (∀ s x e, x ∈ xs → body s x = Raise e → P e) →
  for_in xs body s = Raise e → P e.
Proof.
  revert s. induction xs as [|x xs IH]; intros s Hbody; simpl; [done|].
  destruct (body s x) as [s'|e'] eqn:Hx; simpl.
  - apply IH. intros s0 y e0 Hy. apply Hbody. by apply list_elem_of_further.
  - intros [= <-]. eapply Hbody; [apply list_elem_of_here|done].
Qed.

Lemma xrange_elem x stop step :
  x ∈ xrange stop step → ∃ i, x = i * step ∧ i < (stop + step - 1) / step.
Proof.
  unfold xrange. intros (i & -> & Hi)%list_elem_of_fmap.
  apply elem_of_seq in Hi. exists i. split; [done|lia].
Qed.

Lemma fill_dict_whole {cpv} (paths : bool) eclasses (e : exn cpv) :
  length eclasses mod (if paths then 3 else 2) = 0 →
  fill_dict paths eclasses = Raise e → e = ValueError.
Proof.
  intros Hmod. unfold fill_dict. destruct paths.
  - apply (for_in_raise _ _ (λ e, e = ValueError)).
    intros d x e' (i & -> & Hi)%xrange_elem. apply store_triple_in_range.
    pose proof (Nat.div_mod_eq (length eclasses) 3) as Hn.
    rewrite Hmod in Hn.
    assert ((length eclasses + 3 - 1) / 3 = length eclasses / 3) as Hq
      by (symmetry; apply (Nat.div_unique _ 3 _ 2); lia).
    lia.
  - apply (for_in_raise _ _ (λ e, e = ValueError)).
    intros d x e' (i & -> & Hi)%xrange_elem. apply store_pair_in_range.
    pose proof (Nat.div_mod_eq (length eclasses) 2) as Hn.
    rewrite Hmod in Hn.
    assert ((length eclasses + 2 - 1) / 2 = length eclasses / 2) as Hq
      by (symmetry; apply (Nat.div_unique _ 2 _ 1); lia).
    lia.
Qed.

(** Decoding a string raises nothing but [CacheCorruption] and
    [IndexError], and [IndexError] exactly when the token count is even and
    not a multiple of three, the second token is not a string of digits, and
    [long] reads the third token of every complete triple. *)
Theorem reconstruct_raises_only {cpv} (c : cpv) s :
  let eclasses := split_tab (strip s) in
  (∀ e, reconstruct_eclasses c (VStr s) = Raise e →
        e = IndexError ∨ ∃ why, e = CacheCorruption c why) ∧
  (reconstruct_eclasses c (VStr s) = Raise IndexError ↔
   length eclasses mod 3 ≠ 0 ∧ length eclasses mod 2 = 0 ∧
   (∃ second, eclasses !! 1 = Some second ∧ isdigit second = false) ∧
   ∀ i t, eclasses !! (i * 3 + 2) = Some t → ∃ z, long (cpv := cpv) t = Ok z).
Proof.
  intros eclasses.
  destruct (decide (length eclasses mod 3 = 0)) as [H3|H3].
  { assert (∀ e, reconstruct_eclasses c (VStr s) = Raise e →
                 ∃ why, e = CacheCorruption c why) as Hraise.
    { intros e. unfold reconstruct_eclasses. fold eclasses.
      case_decide; [done|]. unfold choose_paths.
      rewrite (proj2 (Nat.eqb_eq _ _) H3), bind_Ok.
      destruct (fill_dict (cpv := cpv) true eclasses) as [m|e'] eqn:Hfill;
        [done|].
      apply (fill_dict_whole true) in Hfill as ->; [|done].
      intros [= <-]. by eexists. }
    split; [intros e He; right; by apply Hraise|].
    split; [|by intros [? _]].
    intros [why [=]]%Hraise. }
  destruct (decide (length eclasses mod 2 = 0)) as [H2|H2].
  2:{ assert (∀ e, reconstruct_eclasses c (VStr s) = Raise e →
                   ∃ why, e = CacheCorruption c why) as Hraise.
      { intros e. unfold reconstruct_eclasses. fold eclasses.
        case_decide; [done|]. unfold choose_paths.
        rewrite (proj2 (Nat.eqb_neq _ _) H3), (proj2 (Nat.eqb_neq _ _) H2).
        intros [= <-]. by eexists. }
      split; [intros e He; right; by apply Hraise|].
      split; [|by intros (_ & ? & _)].
      intros [why [=]]%Hraise. }
  assert (2 ≤ length eclasses) as Hlen.
  { destruct eclasses as [|? [|? ?]]; simpl in *; [done|done|lia]. }
  destruct (eclasses !! 1) as [second|] eqn:Hsecond;
    [|apply lookup_ge_None in Hsecond; lia].
  rewrite (reconstruct_even_count c s second H3 H2 Hsecond). fold eclasses.
  destruct (isdigit second) eqn:Hd; cbv [negb].
  - assert (∀ e, except_ValueError c s (fill_dict false eclasses) = Raise e →
                 ∃ why, e = CacheCorruption c why) as Hraise.
    { intros e.
      destruct (fill_dict (cpv := cpv) false eclasses) as [m|e'] eqn:Hfill;
        [done|].
      apply (fill_dict_whole false) in Hfill as ->; [|done].
      intros [= <-]. by eexists. }
    split; [intros e He; right; by apply Hraise|].
    split; [intros [why [=]]%Hraise|].
    intros (_ & _ & (second' & [= <-] & Hd') & _). congruence.
  - destruct (fill_dict_incomplete (cpv := cpv) eclasses H3)
      as [[-> Hall]|[-> (i & t & Ht & Hl)]]; cbn [except_ValueError].
    + split; [intros e [= <-]; by left|].
      split; [intros _|done]. split_and!; try done. by exists second.
    + split; [intros e [= <-]; right; by eexists|].
      split; [done|]. intros (_ & _ & _ & Hall).
      destruct (Hall i t Ht) as [z Hz]. congruence.
Qed.

Lemma reconstruct_raises_only_witness :
  reconstruct_eclasses "dev-lang/python-2.7" (VStr (join_tab ["a"; "b"; "1"; "d"]))
  = Raise IndexError.
Proof.
  apply (proj2 (reconstruct_raises_only "dev-lang/python-2.7"
                  (join_tab ["a"; "b"; "1"; "d"]))).
  split_and!; [by vm_compute|by vm_compute|by exists "b"|].
  assert (split_tab (strip (join_tab ["a"; "b"; "1"; "d"]))
          = ["a"; "b"; "1"; "d"]) as -> by (by vm_compute).
  intros [|i] t Ht.
  - injection Ht as <-. by exists 1%Z.
  - apply lookup_lt_Some in Ht. simpl in Ht. lia.
Defined.

(** Decoding the three-field encoding of any sequence of items, repeated
    names included, gives the dictionary in which each name has the path and
    time of its last item. *)
Theorem reconstruct_last_wins {cpv} (c : cpv) items :
  Forall item_clean items →
  reconstruct_eclasses c (VStr (deconstruct_items items))
  = Ok (list_to_map (reverse items)).
Proof.
  intros Hclean. unfold reconstruct_eclasses.
  rewrite deconstruct_items_tokens.
  destruct items as [|kv items]; [done|].
  rewrite strip_join_tokens by done.
  set (its := kv :: items) in *.
  assert (length (tokens its) = length its * 3) as Hlen by apply length_tokens.
  rewrite split_join; [|by destruct (tokens its)|by apply tokens_tab_free].
  rewrite decide_False by (intros Heq; rewrite Heq in Hlen; simpl in Hlen; lia).
  unfold choose_paths.
  assert ((length (tokens its) mod 3 =? 0) = true) as ->
    by (by rewrite Hlen, Nat.Div0.mod_mul).
  rewrite bind_Ok. unfold fill_dict. rewrite xrange_tokens.
  pose proof (for_in_triples (cpv := cpv) [] its ∅ Hclean) as Hloop.
  change (length []) with 0 in Hloop. change ([] ++ its) with its in Hloop.
  rewrite Hloop. unfold except_ValueError.
  by rewrite store_items_list_to_map.
Qed.

Lemma reconstruct_last_wins_witness :
  reconstruct_eclasses "dev-lang/python-2.7"
    (VStr (deconstruct_items
             [("eutils", ("/old", 1%Z)); ("eutils", ("/new", 2%Z))]))
  = Ok {["eutils" := ("/new", 2%Z)]}.
Proof.
  refine (reconstruct_last_wins "dev-lang/python-2.7"
            [("eutils", ("/old", 1%Z)); ("eutils", ("/new", 2%Z))] _).
  repeat constructor; by vm_compute.
Defined.

Lemma legacy_tokens_cons kt pairs :
  legacy_tokens (kt :: pairs) = kt.1 :: str_of_int kt.2 :: legacy_tokens pairs.
Proof. done. Qed.

Lemma legacy_tokens_app l k :
  legacy_tokens (l ++ k) = legacy_tokens l ++ legacy_tokens k.
Proof. apply bind_app. Qed.

Lemma length_legacy_tokens pairs :
  length (legacy_tokens pairs) = length pairs * 2.
Proof.
  induction pairs as [|kt pairs IH]; [done|].
  rewrite legacy_tokens_cons. simpl. rewrite IH. lia.
Qed.

Lemma legacy_tokens_lookup pre kt rest j :
  j < 2 →
  legacy_tokens (pre ++ kt :: rest) !! (length pre * 2 + j)
  = [kt.1; str_of_int kt.2] !! j.
Proof.
  intros Hj. rewrite legacy_tokens_app, legacy_tokens_cons.
  rewrite lookup_app_r by (rewrite length_legacy_tokens; lia).
  rewrite length_legacy_tokens.
  replace (length pre * 2 + j - length pre * 2) with j by lia.
  by destruct j as [|[|j]]; [..|lia].
Qed.

Lemma str_of_int_tab_free n : (0 ≤ n)%Z → tab_free (str_of_int n) = true.
Proof.
  intros (d & _ & -> & _)%str_of_int_digits.
  apply digits_tab_free, digits_of_uint.
Qed.

Lemma str_of_int_isdigit n : (0 ≤ n)%Z → isdigit (str_of_int n) = true.
Proof.
  intros (d & Hd & -> & _)%str_of_int_digits. unfold isdigit.
  pose proof (digits_of_uint d) as Hdig.
  by destruct (NilEmpty.string_of_uint d) eqn:Hs;
    [destruct (string_of_uint_nonempty d Hd)|].
Qed.

Lemma legacy_tokens_tab_free pairs :
  Forall pair_clean pairs →
  Forall (λ t, tab_free t = true) (legacy_tokens pairs).
Proof.
  induction 1 as [|kt pairs ([Hk _] & Ht) _ IH]; [constructor|].
  rewrite legacy_tokens_cons.
  repeat constructor; auto using str_of_int_tab_free.
Qed.

Lemma strip_join_legacy pairs :
  Forall pair_clean pairs →
  strip (join_tab (legacy_tokens pairs)) = join_tab (legacy_tokens pairs).
Proof.
  intros Hpairs. destruct pairs as [|kt pairs]; [done|].
  apply strip_id.
  - rewrite legacy_tokens_cons. apply starts_nonspace_join.
    apply Forall_cons in Hpairs as [([_ Hk] & _) _]. done.
  - destruct pairs as [|kt' pairs _] using rev_ind.
    + apply Forall_cons in Hpairs as [(_ & Ht) _].
      apply (ends_nonspace_join [kt.1]). by apply str_of_int_ends_nonspace.
    + rewrite app_comm_cons, legacy_tokens_app.
      apply Forall_cons in Hpairs as [_ Hpairs].
      apply Forall_app in Hpairs as [_ Hkt'].
      apply Forall_singleton in Hkt' as (_ & Ht).
      change (legacy_tokens [kt']) with ([kt'.1] ++ [str_of_int kt'.2]).
      rewrite app_assoc. apply ends_nonspace_join.
      by apply str_of_int_ends_nonspace.
Qed.

Lemma for_in_pairs {cpv} pre rest (d : eclass_map) :
  Forall pair_clean rest →
  for_in (cpv := cpv) ((λ i, i * 2) <$> seq (length pre) (length rest))
    (store_pair (legacy_tokens (pre ++ rest))) d
  = Ok (store_items d (legacy_item <$> rest)).
Proof.
  revert pre d. induction rest as [|kt rest IH]; intros pre d Hrest; [done|].
  apply Forall_cons in Hrest as [(_ & Ht) Hrest].
  cbn [length seq fmap list_fmap for_in].
  assert (store_pair (cpv := cpv) (legacy_tokens (pre ++ kt :: rest)) d
            (length pre * 2)
          = Ok (<[kt.1 := (EmptyString, kt.2)]> d)) as ->.
  { pose proof (legacy_tokens_lookup pre kt rest 0) as H0.
    pose proof (legacy_tokens_lookup pre kt rest 1) as H1.
    rewrite Nat.add_0_r in H0.
    unfold store_pair, index.
    rewrite H1 by lia; simpl.
    rewrite long_str_of_int by done; simpl.
    by rewrite H0 by lia. }
  rewrite bind_Ok.
  specialize (IH (pre ++ [kt]) (<[kt.1 := (EmptyString, kt.2)]> d) Hrest).
  rewrite length_app, Nat.add_1_r, <- app_assoc in IH. done.
Qed.

Lemma xrange_legacy_tokens pairs :
  xrange (length (legacy_tokens pairs)) 2 = (λ i, i * 2) <$> seq 0 (length pairs).
Proof.
  unfold xrange. rewrite length_legacy_tokens. do 2 f_equal.
  replace (length pairs * 2 + 2 - 1) with (1 + length pairs * 2) by lia.
  by rewrite Nat.div_add.
Qed.

(** The tab-joined string of (name, time) pairs whose number is not a
    multiple of three, with names that contain no tab and start with a
    character that is not whitespace and times that are non-negative,
    decodes to the dictionary that gives each name the empty path and the
    time of its last pair. *)
Theorem reconstruct_legacy_pairs {cpv} (c : cpv) pairs :
  Forall pair_clean pairs → length pairs mod 3 ≠ 0 →
  reconstruct_eclasses c (VStr (join_tab (legacy_tokens pairs)))
  = Ok (list_to_map (reverse (legacy_item <$> pairs))).
Proof.
  intros Hclean Hmod. unfold reconstruct_eclasses.
  rewrite strip_join_legacy by done.
  destruct pairs as [|kt pairs]; [done|].
  set (ps := kt :: pairs) in *.
  assert (length (legacy_tokens ps) = length ps * 2) as Hlen
    by apply length_legacy_tokens.
  rewrite split_join;
    [|by destruct (legacy_tokens ps)|by apply legacy_tokens_tab_free].
  rewrite decide_False by (intros Heq; rewrite Heq in Hlen; simpl in Hlen; lia).
  unfold choose_paths.
  assert ((length (legacy_tokens ps) mod 3 =? 0) = false) as ->.
  { apply Nat.eqb_neq. rewrite Hlen. intros H6.
    pose proof (Nat.div_mod_eq (length ps * 2) 3).
    pose proof (Nat.div_mod_eq (length ps) 3).
    pose proof (Nat.mod_upper_bound (length ps) 3). lia. }
  assert ((length (legacy_tokens ps) mod 2 =? 0) = true) as ->
    by (by rewrite Hlen, Nat.Div0.mod_mul).
  assert (index (cpv := cpv) (legacy_tokens ps) 1 = Ok (str_of_int kt.2)) as ->
    by done.
  rewrite !bind_Ok.
  apply Forall_cons in Hclean as Hkt. destruct Hkt as [(_ & Ht) _].
  rewrite str_of_int_isdigit by done. cbv [negb].
  unfold fill_dict. rewrite xrange_legacy_tokens.
  pose proof (for_in_pairs (cpv := cpv) [] ps ∅ Hclean) as Hloop.
  change (length []) with 0 in Hloop. change ([] ++ ps) with ps in Hloop.
  rewrite Hloop. unfold except_ValueError.
  by rewrite store_items_list_to_map.
Qed.

Lemma reconstruct_legacy_pairs_witness :
  reconstruct_eclasses "dev-lang/python-2.7"
    (VStr (join_tab (legacy_tokens [("libtool", 1234%Z); ("eutils", 5678%Z)])))
  = Ok (<["eutils" := ("", 5678%Z)]> {["libtool" := ("", 1234%Z)]}).
Proof.
  refine (reconstruct_legacy_pairs "dev-lang/python-2.7"
            [("libtool", 1234%Z); ("eutils", 5678%Z)] _ _).
  - repeat constructor; by vm_compute.
  - done.
Defined.



(** *** [ProtectedDict] never writes to the dictionary it wraps *)

Lemma pd_delitem_orig {cpv} k d d' :
  pd_delitem (cpv := cpv) k d = Ok d' → orig d' = orig d.
Proof.
  unfold pd_delitem. repeat case_decide; intros [= <-] || intros [=]; done.
Qed.

Lemma cleanse_orig {cpv} ks d : orig (cleanse (cpv := cpv) ks d).2 = orig d.
Proof.
  revert d. induction ks as [|k ks IH]; intros d; simpl; [done|].
  case_decide; [apply IH|].
  destruct (pd_getitem k d) as [v|e]; [|done].
  destruct (truthy v); [apply IH|].
  destruct (pd_delitem k d) as [d'|e] eqn:Hdel; [|done].
  rewrite IH. by eapply pd_delitem_orig.
Qed.

Lemma serialize_orig {cpv} d : orig (serialize (cpv := cpv) d).2 = orig d.
Proof.
  unfold serialize. destruct (pd_getitem "_eclasses_" d) as [[s|m]|e]; done.
Qed.

Lemma apply_ops_protected ops d :
  underlying (foldl apply_op (Protected d) ops) = orig d.
Proof.
  revert d. induction ops as [|op ops IH]; intros d; [done|].
  destruct op as [k v|k]; simpl.
  - by rewrite IH.
  - destruct (pd_delitem k d) as [d'|e] eqn:Hdel; rewrite IH; [|done].
    by eapply (pd_delitem_orig (cpv := unit)).
Qed.

(** *** The cleansing loop on a fresh [ProtectedDict] *)

Lemma cleanse_fresh {cpv} (values : record) ks d :
  new d = ∅ → orig d = values → NoDup ks →
  (∀ k, k ∈ ks → k ∈ dom values ∧ k ∉ blacklist d) →
  ∃ d', cleanse (cpv := cpv) ks d = (Ok (), d') ∧ new d' = ∅ ∧ orig d' = values ∧
    ∀ k, k ∈ blacklist d' ↔
         k ∈ blacklist d ∨ (k ∈ ks ∧ ∃ v, values !! k = Some v ∧ truthy v = false).
Proof.
  intros Hnew Horig Hnd. revert d Hnew Horig.
  induction Hnd as [|k ks Hk Hnd IH]; intros d Hnew Horig Hks.
  { exists d. split_and!; try done. intros k.
    split; [by left|]. by intros [?|[[]%elem_of_nil _]]. }
  destruct (Hks k) as [Hdom Hbl]; [apply list_elem_of_here|].
  apply elem_of_dom in Hdom as [v Hv].
  assert (¬ (k ∈ blacklist d ∨ k ∈ dom (new d))) as Hfresh.
  { rewrite Hnew, dom_empty_L. by intros [?|[]%elem_of_empty]. }
  assert (k ∉ dom (new d)) as Hnotnew by tauto.
  simpl. rewrite decide_False by done.
  unfold pd_getitem. rewrite Hnew, lookup_empty, decide_False, Horig, Hv by done.
  destruct (truthy v) eqn:Htruthy.
  - destruct (IH d Hnew Horig) as (d' & Hc & Hn' & Ho' & Hb').
    { intros k' Hk'. apply Hks. by apply list_elem_of_further. }
    exists d'. split_and!; try done. intros k'. rewrite Hb'. split.
    + intros [?|[? ?]]; [by left|right].
      split; [by apply list_elem_of_further|done].
    + intros [?|[[->|?]%elem_of_cons (v' & Hv' & Hf)]];
        [by left|congruence|right; eauto].
  - unfold pd_delitem. rewrite decide_False by done.
    rewrite decide_True by (split; [rewrite Horig; by apply elem_of_dom|done]).
    destruct (IH {| orig := orig d; new := new d;
                    blacklist := {[k]} ∪ blacklist d |})
      as (d' & Hc & Hn' & Ho' & Hb'); [done|done| |].
    { intros k' Hk'. simpl.
      destruct (Hks k') as [? ?]; [by apply list_elem_of_further|].
      split; [done|].
      by intros [->%elem_of_singleton|?]%elem_of_union. }
    exists d'. split_and!; try done. intros k'. rewrite Hb'. simpl. split.
    + intros [[->%elem_of_singleton|?]%elem_of_union|[? ?]].
      * right. split; [apply list_elem_of_here|eauto].
      * by left.
      * right. split; [by apply list_elem_of_further|done].
    + intros [?|[[->|?]%elem_of_cons ?]].
      * left. apply elem_of_union. by right.
      * left. apply elem_of_union. left. by apply elem_of_singleton.
      * by right.
Qed.

Lemma cleanse_init {cpv} (values : record) :
  ∃ d, cleanse (cpv := cpv) (map_to_list values).*1 (ProtectedDict_init values)
       = (Ok (), d) ∧
    new d = ∅ ∧ orig d = values ∧
    ∀ k, k ∈ blacklist d ↔ ∃ v, values !! k = Some v ∧ truthy v = false.
Proof.
  destruct (cleanse_fresh (cpv := cpv) values (map_to_list values).*1
              (ProtectedDict_init values))
    as (d & Hc & Hnew & Horig & Hbl); [done|done|apply NoDup_fst_map_to_list| |].
  { intros k [[k' v'] [-> Hin%elem_of_map_to_list]]%list_elem_of_fmap.
    split; [by apply elem_of_dom|apply not_elem_of_empty]. }
  exists d. split_and!; try done. intros k. rewrite Hbl. split.
  - by intros [[]%elem_of_empty|[_ ?]].
  - intros (v & Hv & Hf). right. split; [|eauto].
    apply list_elem_of_fmap. exists (k, v).
    split; [done|by apply elem_of_map_to_list].
Qed.




(** *** The cache object *)

Section cache.
(** Package coordinates, and the state of the storage behind the cache. *)
Context {cpv B : Type}.

(** The methods a derived class supplies.  Each returns its outcome and the
    storage afterwards; [_setitem] also returns the writes it makes to the
    mapping it is handed. *)
Variable _getitem : cpv → B → result (exn cpv) record * B.
Variable _setitem : cpv → mapping → B → result (exn cpv) unit * list dict_op * B.
Variable _delitem : cpv → B → result (exn cpv) unit * B.
(** The derived class's [commit]. *)
Variable commit_impl : B → result (exn cpv) unit * B.

(** Calls that reach the derived class, in order. *)
Inductive backend_call : Type :=
| CallGetitem (c : cpv)
| CallSetitem (c : cpv) (d : mapping)
| CallDelitem (c : cpv)
| CallCommit.

(** The cache object: the class attributes and instance attributes the
    template reads, the storage, and the log of calls to the derived class. *)
Record cache : Type := {
  readonly : bool;
  autocommits : bool;
  cleanse_keys : bool;
  serialize_eclasses : bool;
  sync_rate : Z;
  updates : Z;
  backend : B;
  calls : list backend_call;
}.

Definition set_updates (n : Z) (st : cache) : cache :=
  {| readonly := readonly st; autocommits := autocommits st;
     cleanse_keys := cleanse_keys st;
     serialize_eclasses := serialize_eclasses st;
     sync_rate := sync_rate st; updates := n;
     backend := backend st; calls := calls st |}.

Definition set_sync_rate (rate : Z) (st : cache) : cache :=
  {| readonly := readonly st; autocommits := autocommits st;
     cleanse_keys := cleanse_keys st;
     serialize_eclasses := serialize_eclasses st;
     sync_rate := rate; updates := updates st;
     backend := backend st; calls := calls st |}.

(** The storage after a call to the derived class, and the call logged. *)
Definition called (call : backend_call) (b : B) (st : cache) : cache :=
  {| readonly := readonly st; autocommits := autocommits st;
     cleanse_keys := cleanse_keys st;
     serialize_eclasses := serialize_eclasses st;
     sync_rate := sync_rate st; updates := updates st;
     backend := b; calls := calls st ++ [call] |}.

(** [base.commit], which a derived class that queues updates overrides. *)
Definition base_commit (st : cache) : result (exn cpv) unit :=
  if negb (autocommits st) then Raise NotImplementedError else Ok ().

(** [self.commit()] *)
Definition commit (st : cache) : result (exn cpv) unit * cache :=
  let '(r, b) := commit_impl (backend st) in (r, called CallCommit b st).

(** [if self.updates > self.sync_rate: self.commit(); self.updates = 0] *)
Definition flush_if_due (st : cache) : result (exn cpv) unit * cache :=
  if (sync_rate st <? updates st)%Z then
    match commit st with
    | (Raise e, st1) => (Raise e, st1)
    | (Ok (), st1) => (Ok (), set_updates 0 st1)
    end
  else (Ok (), st).

(** [__getitem__(cpv)] *)
Definition getitem (c : cpv) (st : cache) : result (exn cpv) record * cache :=
  match flush_if_due st with
  | (Raise e, st1) => (Raise e, st1)
  | (Ok (), st1) =>
      let '(r, b) := _getitem c (backend st1) in
      let st2 := called (CallGetitem c) b st1 in
      match r with
      | Raise e => (Raise e, st2)
      | Ok d =>
          if serialize_eclasses st2 then
            match d !! "_eclasses_" with
            | Some v =>
                match reconstruct_eclasses c v with
                | Raise e => (Raise e, st2)
                | Ok m => (Ok (<["_eclasses_" := VEclasses m]> d), st2)
                end
            | None => (Ok d, st2)
            end
          else (Ok d, st2)
      end
  end.

(** Lines 83 to 94 of [__setitem__]: the object bound to [d], as the
    statements left it, and whether they raised. *)
Definition prepare (st : cache) (values : record)
  : result (exn cpv) unit * mapping :=
  if cleanse_keys st then
    match cleanse (map_to_list values).*1 (ProtectedDict_init values) with
    | (Raise e, d) => (Raise e, Protected d)
    | (Ok (), d) =>
        if serialize_eclasses st && bool_decide ("_eclasses_" ∈ dom values) then
          let '(r, d') := serialize d in (r, Protected d')
        else (Ok (), Protected d)
    end
  else if serialize_eclasses st && bool_decide ("_eclasses_" ∈ dom values) then
    let '(r, d') := serialize (ProtectedDict_init values) in (r, Protected d')
  else (Ok (), Plain values).

(** Lines 96 to 100: count the write and flush when the count passes
    [sync_rate]. *)
Definition count_write (st : cache) : result (exn cpv) unit * cache :=
  if negb (autocommits st) then
    let st1 := set_updates (updates st + 1) st in
    if (sync_rate st1 <? updates st1)%Z then
      match commit st1 with
      | (Raise e, st2) => (Raise e, st2)
      | (Ok (), st2) => (Ok (), set_updates 0 st2)
      end
    else (Ok (), st1)
  else (Ok (), st).

(** [__setitem__(cpv, values)]: the outcome, the cache afterwards, and the
    content of the caller's dictionary afterwards. *)
Definition setitem (c : cpv) (values : record) (st : cache)
  : result (exn cpv) unit * cache * record :=
  if readonly st then (Raise ReadOnly, st, values)
  else
    match prepare st values with
    | (Raise e, d) => (Raise e, st, underlying d)
    | (Ok (), d) =>
        let '(r, ops, b) := _setitem c d (backend st) in
        let d' := foldl apply_op d ops in
        let st1 := called (CallSetitem c d) b st in
        match r with
        | Raise e => (Raise e, st1, underlying d')
        | Ok () => let '(r', st2) := count_write st1 in (r', st2, underlying d')
        end
    end.

(** [__delitem__(cpv)] *)
Definition delitem (c : cpv) (st : cache) : result (exn cpv) unit * cache :=
  if readonly st then (Raise ReadOnly, st)
  else
    let st1 := if negb (autocommits st) then set_updates (updates st + 1) st
               else st in
    let '(r, b) := _delitem c (backend st1) in
    let st2 := called (CallDelitem c) b st1 in
    match r with
    | Raise e => (Raise e, st2)
    | Ok () => flush_if_due st2
    end.

(** [sync(rate)] *)
Definition sync (rate : Z) (st : cache) : result (exn cpv) unit * cache :=
  let st1 := set_sync_rate rate st in
  if (rate =? 0)%Z then commit st1 else (Ok (), st1).

(** The number of [commit] calls logged. *)
Definition is_commit (call : backend_call) : bool :=
  match call with CallCommit => true | _ => false end.

Definition commits (st : cache) : nat :=
  length (filter (λ call, is_commit call = true) (calls st)).

(** Whether [__setitem__] wraps the caller's dictionary: lines 83, 88 and
    90. *)
Definition makes_copy (st : cache) (values : record) : bool :=
  cleanse_keys st ||
  (serialize_eclasses st && bool_decide ("_eclasses_" ∈ dom values)).

Lemma prepare_underlying st values : underlying (prepare st values).2 = values.
Proof.
  unfold prepare. destruct (cleanse_keys st).
  - pose proof (cleanse_orig (cpv := cpv) (map_to_list values).*1
                (ProtectedDict_init values)) as Hc.
    destruct (cleanse _ _) as [[[]|e] d]; simpl in *; [|done].
    destruct (serialize_eclasses st && _); [|done].
    pose proof (serialize_orig (cpv := cpv) d) as Hs.
    destruct (serialize d) as [r d']; simpl in *. congruence.
  - destruct (serialize_eclasses st && _); [|done].
    pose proof (serialize_orig (cpv := cpv) (ProtectedDict_init values)) as Hs.
    by destruct (serialize _) as [r d'].
Qed.

Lemma prepare_plain st values :
  makes_copy st values = false → prepare st values = (Ok (), Plain values).
Proof.
  unfold makes_copy, prepare. intros [-> ->]%orb_false_iff. done.
Qed.

Lemma prepare_protected st values :
  makes_copy st values = true → ∃ d, (prepare st values).2 = Protected d.
Proof.
  unfold makes_copy, prepare. destruct (cleanse_keys st); simpl.
  - intros _. destruct (cleanse _ _) as [[[]|e] d]; [|by eexists].
    destruct (serialize_eclasses st && _); [|by eexists].
    destruct (serialize d); by eexists.
  - intros ->. destruct (serialize _); by eexists.
Qed.

(** *** The log and the counter *)

Lemma commits_called call b st :
  commits (called call b st) = if is_commit call then S (commits st) else commits st.
Proof.
  unfold commits, called; simpl. rewrite filter_app, length_app.
  rewrite filter_cons, filter_nil. destruct (is_commit call); simpl; lia.
Qed.

Lemma count_write_ok st st' :
  autocommits st = false → count_write st = (Ok (), st') →
  readonly st' = readonly st ∧ autocommits st' = false ∧
  sync_rate st' = sync_rate st ∧
  (if (sync_rate st <? updates st + 1)%Z
   then updates st' = 0%Z ∧ commits st' = S (commits st)
   else updates st' = (updates st + 1)%Z ∧ commits st' = commits st).
Proof.
  intros Ha. unfold count_write, commit. rewrite Ha; simpl.
  destruct (sync_rate st <? updates st + 1)%Z.
  - destruct (commit_impl (backend st)) as [[[]|e] b]; intros [= <-]; simpl.
    split_and!; try done.
    exact (commits_called CallCommit b (set_updates (updates st + 1) st)).
  - by intros [= <-].
Qed.

Lemma setitem_ok c values st :
  autocommits st = false → (setitem c values st).1.1 = Ok () →
  let st' := (setitem c values st).1.2 in
  readonly st' = readonly st ∧ autocommits st' = false ∧
  sync_rate st' = sync_rate st ∧
  (if (sync_rate st <? updates st + 1)%Z
   then updates st' = 0%Z ∧ commits st' = S (commits st)
   else updates st' = (updates st + 1)%Z ∧ commits st' = commits st).
Proof.
  intros Ha. unfold setitem.
  destruct (readonly st) eqn:Hro; [done|].
  destruct (prepare st values) as [[[]|e] d]; [|done].
  destruct (_setitem c d (backend st)) as [[[[]|e] ops] b]; [|done].
  destruct (count_write _) as [r st2] eqn:Hcw. simpl. intros ->.
  apply count_write_ok in Hcw; [|done].
  rewrite (commits_called (CallSetitem c d)) in Hcw. simpl in Hcw.
  destruct Hcw as (? & ? & ? & ?). split_and!; congruence || done.
Qed.

Lemma getitem_no_flush c st :
  (updates st ≤ sync_rate st)%Z →
  commits (getitem c st).2 = commits st ∧
  updates (getitem c st).2 = updates st.
Proof.
  intros Hle. unfold getitem, flush_if_due.
  rewrite (proj2 (Z.ltb_ge _ _) Hle).
  destruct (_getitem c (backend st)) as [r b].
  assert (commits (called (CallGetitem c) b st) = commits st) as Hc
    by apply (commits_called (CallGetitem c)).
  destruct r as [d|e]; [|done].
  destruct (serialize_eclasses _); [|done].
  destruct (d !! "_eclasses_") as [v|]; [|done].
  by destruct (reconstruct_eclasses c v).
Qed.

(** *** The stated properties of the cache *)

(** C5: with [sync_rate] 2, updates queued ([autocommits] false) and no
    write pending, three consecutive [__setitem__] calls that return call
    [commit] once, in the third call, which leaves no write pending; and a
    [__getitem__] on a cache with [sync_rate] 2 and one write pending calls
    no [commit] and leaves the one write pending. *)
Theorem three_sets_commit_once c1 v1 c2 v2 c3 v3 st0 :
  autocommits st0 = false → sync_rate st0 = 2%Z → updates st0 = 0%Z →
  let st1 := (setitem c1 v1 st0).1.2 in
  let st2 := (setitem c2 v2 st1).1.2 in
  let st3 := (setitem c3 v3 st2).1.2 in
  (setitem c1 v1 st0).1.1 = Ok () →
  (setitem c2 v2 st1).1.1 = Ok () →
  (setitem c3 v3 st2).1.1 = Ok () →
  (commits st1 = commits st0 ∧ commits st2 = commits st0 ∧
   commits st3 = S (commits st0) ∧ updates st3 = 0%Z) ∧
  ∀ st c, sync_rate st = 2%Z → updates st = 1%Z →
    commits (getitem c st).2 = commits st ∧ updates (getitem c st).2 = 1%Z.
Proof.
  intros Ha Hrate Hupd st1 st2 st3 H1 H2 H3. split.
  - destruct (setitem_ok c1 v1 st0 Ha H1) as (_ & Ha1 & Hr1 & Hu1).
    rewrite Hrate, Hupd in Hu1. simpl in Hu1. destruct Hu1 as [Hu1 Hc1].
    fold st1 in Ha1, Hr1, Hu1, Hc1.
    destruct (setitem_ok c2 v2 st1 Ha1 H2) as (_ & Ha2 & Hr2 & Hu2).
    rewrite Hr1, Hrate, Hu1 in Hu2. simpl in Hu2. destruct Hu2 as [Hu2 Hc2].
    fold st2 in Ha2, Hr2, Hu2, Hc2.
    destruct (setitem_ok c3 v3 st2 Ha2 H3) as (_ & Ha3 & Hr3 & Hu3).
    rewrite Hr2, Hr1, Hrate, Hu2 in Hu3. simpl in Hu3. destruct Hu3 as [Hu3 Hc3].
    fold st3 in Hu3, Hc3. split_and!; congruence.
  - intros st c Hr Hu. destruct (getitem_no_flush c st) as [Hc Hu']; [lia|].
    split; [done|congruence].
Qed.

(** C6: on a cache with [readonly] true, every [__setitem__] and every
    [__delitem__] raises [ReadOnly] and leaves the cache as it was: no call
    to the derived class is logged, the storage and the pending-write counter
    are unchanged. *)
Theorem readonly_rejects_writes st :
  readonly st = true →
  (∀ c values, setitem c values st = (Raise ReadOnly, st, values)) ∧
  (∀ c, delitem c st = (Raise ReadOnly, st)).
Proof. intros Hro. unfold setitem, delitem. by rewrite Hro. Qed.

(** C9 (amended): when [cleanse_keys] is set, or [serialize_eclasses] is
    set and the record has the key [_eclasses_], the derived class is handed
    a [ProtectedDict], and after [__setitem__] returns or raises the caller's
    dictionary holds the pairs it held before, whatever the derived class
    does.  In the remaining case of a cache that is not read-only the derived
    class is handed the caller's dictionary itself; [__setitem__] makes no
    write of its own, and the dictionary holds afterwards what the writes of
    [_setitem] made of it. *)
Theorem setitem_keeps_record c values st :
  (makes_copy st values = true → (setitem c values st).2 = values) ∧
  (readonly st = false → makes_copy st values = false →
   CallSetitem c (Plain values) ∈ calls (setitem c values st).1.2 ∧
   (setitem c values st).2
   = underlying (foldl apply_op (Plain values)
                   (_setitem c (Plain values) (backend st)).1.2)).
Proof.
  split.
  - intros Hcopy. unfold setitem. destruct (readonly st); [done|].
    destruct (prepare_protected st values Hcopy) as [d Hd].
    pose proof (prepare_underlying st values) as Hu. rewrite Hd in Hu.
    destruct (prepare st values) as [r m]. simpl in Hd. subst m.
    destruct r as [[]|e]; [|done].
    destruct (_setitem c (Protected d) (backend st)) as [[r ops] b].
    pose proof (apply_ops_protected ops d) as Hops.
    destruct r as [[]|e]; [destruct (count_write _)|]; simpl in *; congruence.
  - intros Hro Hcopy. unfold setitem.
    rewrite Hro, (prepare_plain st values Hcopy).
    destruct (_setitem c (Plain values) (backend st)) as [[r ops] b].
    assert (CallSetitem c (Plain values)
            ∈ calls (called (CallSetitem c (Plain values)) b st)) as Hcall.
    { apply elem_of_app. right. apply list_elem_of_here. }
    destruct r as [[]|e]; [|done].
    unfold count_write, commit.
    destruct (negb _); [|done].
    destruct (_ <? _)%Z; [|done].
    destruct (commit_impl _) as [[[]|e] b']; simpl; split; try done;
      apply elem_of_app; left; done.
Qed.

(** C10: with [cleanse_keys] and [serialize_eclasses] true, [__setitem__]
    on a cache that is not read-only, with a record whose [_eclasses_] value
    is false (empty), raises [KeyError] from the lookup of line 89, before
    the derived class is reached. *)
Theorem setitem_empty_eclasses_KeyError c values v st :
  readonly st = false → cleanse_keys st = true → serialize_eclasses st = true →
  values !! "_eclasses_" = Some v → truthy v = false →
  setitem c values st = (Raise (KeyError "_eclasses_"), st, values).
Proof.
  intros Hro Hck Hse Hv Hfalse. unfold setitem, prepare.
  rewrite Hro, Hck, Hse.
  destruct (cleanse_fresh (cpv := cpv) values (map_to_list values).*1
              (ProtectedDict_init values))
    as (d & -> & Hnew & Horig & Hbl); [done|done|apply NoDup_fst_map_to_list| |].
  { intros k [[k' v'] [-> Hin%elem_of_map_to_list]]%list_elem_of_fmap.
    split; [by apply elem_of_dom|set_solver]. }
  rewrite bool_decide_eq_true_2 by by apply elem_of_dom. simpl.
  unfold serialize, pd_getitem. rewrite Hnew, lookup_empty.
  rewrite decide_True; [simpl; by rewrite Horig|].
  apply Hbl. right. split; [|eauto].
  apply list_elem_of_fmap. exists ("_eclasses_", v).
  split; [done|by apply elem_of_map_to_list].
Qed.

(** *** Further properties of the cache *)

(** [base.__init__]: nothing pending, [sync_rate] zero, no call made yet;
    the four flags are the argument [readonly] and the class attributes. *)
Definition new_cache (ro auto cleanse serialize : bool) (b : B) : cache :=
  {| readonly := ro; autocommits := auto; cleanse_keys := cleanse;
     serialize_eclasses := serialize; sync_rate := 0; updates := 0;
     backend := b; calls := [] |}.

(** [d.get(k)] on the object handed to the derived class. *)
Definition mapping_lookup (k : string) (d : mapping) : option value :=
  match d with
  | Plain values => values !! k
  | Protected d =>
      match pd_getitem (cpv := cpv) k d with
      | Ok v => Some v
      | Raise _ => None
      end
  end.

(** An eclass dictionary as its encoding. *)
Definition encoded (v : value) : value :=
  match v with
  | VEclasses m => VStr (deconstruct_eclasses m)
  | VStr s => VStr s
  end.

(** What [__setitem__] stores under [k] for the record [values]. *)
Definition stored_value (st : cache) (values : record) (k : string)
  : option value :=
  match values !! k with
  | None => None
  | Some v =>
      if cleanse_keys st && negb (truthy v) then None
      else if serialize_eclasses st && bool_decide (k = "_eclasses_")
           then Some (encoded v)
           else Some v
  end.

(** Consecutive [__setitem__] calls that all return: the cache afterwards,
    or [None] when one of them raises. *)
Fixpoint setitems (l : list (cpv * record)) (st : cache) : option cache :=
  match l with
  | [] => Some st
  | (c, values) :: l' =>
      match setitem c values st with
      | (Ok (), st', _) => setitems l' st'
      | (Raise _, _, _) => None
      end
  end.

Lemma flush_if_due_ok st st1 :
  flush_if_due st = (Ok (), st1) →
  readonly st1 = readonly st ∧ autocommits st1 = autocommits st ∧
  cleanse_keys st1 = cleanse_keys st ∧
  serialize_eclasses st1 = serialize_eclasses st ∧
  sync_rate st1 = sync_rate st ∧
  (if (sync_rate st <? updates st)%Z
   then updates st1 = 0%Z ∧ commits st1 = S (commits st)
   else st1 = st).
Proof.
  unfold flush_if_due, commit. destruct (sync_rate st <? updates st)%Z.
  - destruct (commit_impl (backend st)) as [[[]|e] b]; intros [= <-]; simpl.
    split_and!; try done. apply (commits_called CallCommit).
  - by intros [= <-].
Qed.

(** With a [sync_rate] that is not negative, the pending-write counter is
    at most [sync_rate] whenever [__getitem__] or [__delitem__] returns, and
    whenever [__setitem__] returns on a cache that queues updates; none of
    them changes [sync_rate]. *)
Theorem pending_bounded c values st :
  (0 ≤ sync_rate st)%Z →
  (∀ r st', getitem c st = (Ok r, st') →
     (updates st' ≤ sync_rate st')%Z ∧ sync_rate st' = sync_rate st) ∧
  (∀ st', delitem c st = (Ok (), st') →
     (updates st' ≤ sync_rate st')%Z ∧ sync_rate st' = sync_rate st) ∧
  (autocommits st = false →
   ∀ st' rec, setitem c values st = (Ok (), st', rec) →
     (updates st' ≤ sync_rate st')%Z ∧ sync_rate st' = sync_rate st).
Proof.
  intros Hrate.
  assert (∀ st0 st1, sync_rate st0 = sync_rate st →
            flush_if_due st0 = (Ok (), st1) →
            (updates st1 ≤ sync_rate st1)%Z ∧ sync_rate st1 = sync_rate st)
    as Hflush.
  { intros st0 st1 H0 (_ & _ & _ & _ & Hr & Hu)%flush_if_due_ok.
    destruct (sync_rate st0 <? updates st0)%Z eqn:Hlt.
    - destruct Hu as [Hu _]. split; lia.
    - subst st1. apply Z.ltb_ge in Hlt. split; lia. }
  split_and!.
  - intros r st'. unfold getitem.
    destruct (flush_if_due st) as [[[]|e] st1] eqn:Hf; [|done].
    apply Hflush in Hf as [Hu Hr]; [|done].
    destruct (_getitem c (backend st1)) as [[d|e] b]; [|done].
    assert (∀ r', (Ok (E := exn cpv) r', called (CallGetitem c) b st1)
                  = (Ok r, st') →
              (updates st' ≤ sync_rate st')%Z ∧ sync_rate st' = sync_rate st)
      as Hdone by (by intros r' [= _ <-]).
    destruct (serialize_eclasses _); [|apply Hdone].
    destruct (d !! "_eclasses_") as [v|]; [|apply Hdone].
    destruct (reconstruct_eclasses c v); [apply Hdone|done].
  - intros st'. unfold delitem. destruct (readonly st); [done|].
    destruct (_delitem c _) as [[[]|e] b]; [|done].
    apply Hflush. by destruct (negb (autocommits st)).
  - intros Ha st' rec Hset.
    pose proof (setitem_ok c values st Ha) as Hok.
    rewrite Hset in Hok. simpl in Hok.
    destruct (Hok eq_refl) as (_ & _ & Hr & Hu).
    destruct (sync_rate st <? updates st + 1)%Z eqn:Hlt.
    + destruct Hu as [Hu _]. split; lia.
    + destruct Hu as [Hu _]. apply Z.ltb_ge in Hlt. split; lia.
Qed.

Lemma setitems_count l st st' :
  autocommits st = false →
  (0 ≤ updates st ≤ sync_rate st)%Z →
  setitems l st = Some st' →
  updates st'
  = ((updates st + Z.of_nat (length l)) mod (sync_rate st + 1))%Z ∧
  Z.of_nat (commits st')
  = (Z.of_nat (commits st)
     + (updates st + Z.of_nat (length l)) / (sync_rate st + 1))%Z.
Proof.
  revert st. induction l as [|[c values] l IH]; intros st Ha Hu.
  - intros [= <-]. simpl. rewrite Z.add_0_r.
    rewrite Z.mod_small, Z.div_small by lia. lia.
  - simpl. destruct (setitem c values st) as [[r st1] rec] eqn:Hset.
    destruct r as [[]|e]; [|done]. intros Hrest.
    pose proof (setitem_ok c values st Ha) as Hok.
    rewrite Hset in Hok. simpl in Hok.
    destruct (Hok eq_refl) as (_ & Ha1 & Hr1 & Hu1).
    destruct (sync_rate st <? updates st + 1)%Z eqn:Hlt.
    + apply Z.ltb_lt in Hlt. destruct Hu1 as [Hu1 Hc1].
      destruct (IH st1 Ha1) as [IHu IHc]; [lia|done|].
      rewrite IHu, IHc, Hu1, Hc1, Hr1.
      replace (updates st + Z.of_nat (S (length l)))%Z
        with (Z.of_nat (length l) + 1 * (sync_rate st + 1))%Z by lia.
      rewrite Z.mod_add, Z.div_add by lia. rewrite !Z.add_0_l.
      split; [done|lia].
    + apply Z.ltb_ge in Hlt. destruct Hu1 as [Hu1 Hc1].
      destruct (IH st1 Ha1) as [IHu IHc]; [lia|done|].
      rewrite IHu, IHc, Hu1, Hc1, Hr1.
      replace (updates st + Z.of_nat (S (length l)))%Z
        with (updates st + 1 + Z.of_nat (length l))%Z by lia.
      done.
Qed.

(** Batching in general: on a cache that queues updates, with a
    [sync_rate] that is not negative and [u] writes pending ([u] at most
    [sync_rate]), [n] consecutive [__setitem__] calls that return call
    [commit] [(u + n) / (sync_rate + 1)] times and leave
    [(u + n) mod (sync_rate + 1)] writes pending. *)
Theorem setitems_commits l st st' :
  autocommits st = false →
  (0 ≤ updates st ≤ sync_rate st)%Z →
  setitems l st = Some st' →
  updates st'
  = ((updates st + Z.of_nat (length l)) mod (sync_rate st + 1))%Z ∧
  Z.of_nat (commits st')
  = (Z.of_nat (commits st)
     + (updates st + Z.of_nat (length l)) / (sync_rate st + 1))%Z.
Proof. apply setitems_count. Qed.

(** On a cache as [__init__] leaves it ([sync_rate] zero, nothing pending)
    that queues updates, every [__setitem__] that returns calls [commit]:
    after [n] of them [commit] was called [n] times and nothing is pending. *)
Theorem new_cache_commits_every_set l ro cleanse serialize b st' :
  setitems l (new_cache ro false cleanse serialize b) = Some st' →
  commits st' = length l ∧ updates st' = 0%Z.
Proof.
  intros Hl.
  destruct (setitems_count l (new_cache ro false cleanse serialize b) st')
    as [Hu Hc]; [done|done|done|].
  simpl in Hu, Hc. rewrite Z.mod_1_r in Hu. rewrite Z.div_1_r in Hc.
  split; [|done]. unfold commits in Hc at 2. simpl in Hc. lia.
Qed.

Lemma getitem_after_flush c st st1 :
  flush_if_due st = (Ok (), st1) →
  ∃ b, (getitem c st).2 = called (CallGetitem c) b st1.
Proof.
  intros Hf. unfold getitem. rewrite Hf.
  destruct (_getitem c (backend st1)) as [r b]. exists b.
  destruct r as [d|e]; [|done].
  destruct (serialize_eclasses _); [|done].
  destruct (d !! "_eclasses_") as [v|]; [|done].
  by destruct (reconstruct_eclasses c v).
Qed.

(** [sync(0)] calls [commit] but does not reset the pending-write counter:
    with writes pending, the [__getitem__] that follows calls [commit] a
    second time, and only then is nothing pending. *)
Theorem sync_zero_then_get c st :
  (0 < updates st)%Z →
  let st1 := (sync 0 st).2 in
  (sync 0 st).1 = Ok () → (commit st1).1 = Ok () →
  updates st1 = updates st ∧ sync_rate st1 = 0%Z ∧
  commits st1 = S (commits st) ∧
  commits (getitem c st1).2 = S (S (commits st)) ∧
  updates (getitem c st1).2 = 0%Z.
Proof.
  intros Hu.
  assert (sync 0 st = commit (set_sync_rate 0 st)) as -> by done.
  destruct (commit (set_sync_rate 0 st)) as [r st1] eqn:Hc.
  cbv zeta. cbn [fst snd]. intros -> Hcommit.
  assert (updates st1 = updates st ∧ sync_rate st1 = 0%Z ∧
          commits st1 = S (commits st)) as (Hu1 & Hr1 & Hc1).
  { unfold commit in Hc. destruct (commit_impl _) as [r' b].
    injection Hc as _ <-.
    split_and!; [done|done|].
    exact (commits_called CallCommit b (set_sync_rate 0 st)). }
  split_and!; try done.
  - destruct (flush_if_due st1) as [r st2] eqn:Hf.
    assert (r = Ok ()) as ->.
    { unfold flush_if_due in Hf.
      destruct (sync_rate st1 <? updates st1)%Z; [|congruence].
      destruct (commit st1) as [[[]|e] s2]; [congruence|done]. }
    destruct (getitem_after_flush c st1 st2 Hf) as [b ->].
    rewrite (commits_called (CallGetitem c)). simpl.
    apply flush_if_due_ok in Hf as (_ & _ & _ & _ & _ & Hflush).
    rewrite (proj2 (Z.ltb_lt _ _)) in Hflush by lia.
    destruct Hflush as [_ ->]. by rewrite Hc1.
  - destruct (flush_if_due st1) as [r st2] eqn:Hf.
    assert (r = Ok ()) as ->.
    { unfold flush_if_due in Hf.
      destruct (sync_rate st1 <? updates st1)%Z; [|congruence].
      destruct (commit st1) as [[[]|e] s2]; [congruence|done]. }
    destruct (getitem_after_flush c st1 st2 Hf) as [b ->]. simpl.
    apply flush_if_due_ok in Hf as (_ & _ & _ & _ & _ & Hflush).
    rewrite (proj2 (Z.ltb_lt _ _)) in Hflush by lia.
    by destruct Hflush as [-> _].
Qed.


Lemma cleansed_getitem (values : record) d k :
  new d = ∅ → orig d = values →
  (∀ k, k ∈ blacklist d ↔ ∃ v, values !! k = Some v ∧ truthy v = false) →
  pd_getitem (cpv := cpv) k d
  = match values !! k with
    | Some v => if truthy v then Ok v else Raise (KeyError k)
    | None => Raise (KeyError k)
    end.
Proof.
  intros Hnew Horig Hbl. unfold pd_getitem. rewrite Hnew, lookup_empty.
  case_decide as Hin.
  - apply Hbl in Hin as (v & -> & ->). done.
  - rewrite Horig. destruct (values !! k) as [v|] eqn:Hv; [|done].
    destruct (truthy v) eqn:Ht; [done|]. destruct Hin. apply Hbl. eauto.
Qed.

Lemma serialized_lookup d (values : record) (m : eclass_map) k :
  new d = ∅ → orig d = values →
  mapping_lookup k
    (Protected (pd_setitem "_eclasses_" (VStr (deconstruct_eclasses m)) d))
  = if decide (k = "_eclasses_") then Some (VStr (deconstruct_eclasses m))
    else mapping_lookup k (Protected d).
Proof.
  intros Hnew Horig. destruct (decide (k = "_eclasses_")) as [->|Hk];
    unfold mapping_lookup, pd_getitem, pd_setitem; simpl.
  - by rewrite lookup_insert_eq.
  - rewrite lookup_insert_ne, Hnew, lookup_empty by done.
    destruct (decide (k ∈ blacklist d)) as [Hin|Hin].
    + rewrite decide_True; [done|].
      apply elem_of_difference. split; [done|].
      by intros ?%elem_of_singleton.
    + rewrite decide_False; [done|]. by intros [? _]%elem_of_difference.
Qed.

(** What the derived class is handed: whenever lines 83 to 94 of
    [__setitem__] complete, looking a key up in the mapping passed to
    [_setitem] gives the caller's value, except that with [cleanse_keys] the
    keys with a false value are missing, and with [serialize_eclasses] the
    dictionary under [_eclasses_] is replaced by its encoding. *)
Theorem prepare_stores st values d :
  prepare st values = (Ok (), d) →
  ∀ k, mapping_lookup k d = stored_value st values k.
Proof.
  unfold prepare, stored_value. intros Hprep k.
  assert (serialize_eclasses st && bool_decide ("_eclasses_" ∈ dom values) = false →
          ∀ v, values !! k = Some v →
               serialize_eclasses st && bool_decide (k = "_eclasses_") = false)
    as Hother.
  { intros [->|Hdom]%andb_false_iff v Hv; [done|].
    apply bool_decide_eq_false in Hdom.
    rewrite bool_decide_eq_false_2; [apply andb_false_r|].
    intros ->. apply Hdom, elem_of_dom. eauto. }
  destruct (cleanse_keys st) eqn:Hck.
  - destruct (cleanse_init (cpv := cpv) values) as (d1 & Hc & Hnew & Horig & Hbl).
    rewrite Hc in Hprep.
    pose proof (cleansed_getitem values d1 k Hnew Horig Hbl) as Hk.
    destruct (serialize_eclasses st && bool_decide ("_eclasses_" ∈ dom values))
      eqn:Hse.
    + apply andb_true_iff in Hse as [Hs Hdom].
      apply bool_decide_eq_true, elem_of_dom in Hdom as [v Hv].
      unfold serialize in Hprep.
      rewrite (cleansed_getitem values d1 "_eclasses_" Hnew Horig Hbl), Hv
        in Hprep.
      destruct (truthy v) eqn:Ht; [|done].
      destruct v as [s|m]; [done|]. injection Hprep as <-.
      rewrite (serialized_lookup d1 values m k Hnew Horig).
      destruct (decide (k = "_eclasses_")) as [->|Hke].
      * rewrite Hv, Ht, Hs. cbn [andb negb].
        by rewrite bool_decide_eq_true_2.
      * unfold mapping_lookup. rewrite Hk.
        destruct (values !! k) as [v|]; [|done].
        destruct (truthy v); simpl; [|done].
        by rewrite bool_decide_eq_false_2, andb_false_r.
    + injection Hprep as <-. unfold mapping_lookup. rewrite Hk.
      destruct (values !! k) as [v|] eqn:Hv; [|done].
      destruct (truthy v); simpl; [|done]. by rewrite (Hother eq_refl v).
  - destruct (serialize_eclasses st && bool_decide ("_eclasses_" ∈ dom values))
      eqn:Hse.
    + apply andb_true_iff in Hse as [Hs Hdom].
      apply bool_decide_eq_true, elem_of_dom in Hdom as [v Hv].
      unfold serialize, pd_getitem in Hprep. simpl in Hprep.
      rewrite lookup_empty, decide_False, Hv in Hprep
        by apply not_elem_of_empty.
      destruct v as [s|m]; [done|]. injection Hprep as <-.
      rewrite (serialized_lookup (ProtectedDict_init values) values m k)
        by done.
      destruct (decide (k = "_eclasses_")) as [->|Hke].
      * rewrite Hv, Hs. cbn [andb negb]. by rewrite bool_decide_eq_true_2.
      * unfold mapping_lookup, pd_getitem. simpl.
        rewrite lookup_empty, decide_False by apply not_elem_of_empty.
        destruct (values !! k) as [v|]; [|done]. simpl.
        by rewrite bool_decide_eq_false_2, andb_false_r.
    + injection Hprep as <-. simpl.
      destruct (values !! k) as [v|] eqn:Hv; [|done]. simpl.
      by rewrite (Hother eq_refl v).
Qed.

(** With [serialize_eclasses], a record whose [_eclasses_] value is already a
    string (not empty when the keys are cleansed) is refused with
    [AttributeError], before the derived class is reached; the cache and the
    record are unchanged. *)
Theorem setitem_string_eclasses c values s st :
  readonly st = false → serialize_eclasses st = true →
  values !! "_eclasses_" = Some (VStr s) →
  cleanse_keys st = false ∨ s ≠ EmptyString →
  setitem c values st = (Raise AttributeError, st, values).
Proof.
  intros Hro Hse Hv Hcase. unfold setitem, prepare. rewrite Hro, Hse.
  rewrite bool_decide_eq_true_2 by (apply elem_of_dom; eauto). simpl.
  destruct (cleanse_keys st) eqn:Hck.
  - destruct Hcase as [?|Hs]; [done|].
    destruct (cleanse_init (cpv := cpv) values) as (d1 & -> & Hnew & Horig & Hbl).
    unfold serialize.
    rewrite (cleansed_getitem values d1 "_eclasses_" Hnew Horig Hbl), Hv.
    simpl. rewrite bool_decide_eq_false_2 by done. simpl. by rewrite Horig.
  - unfold serialize, pd_getitem. simpl.
    by rewrite lookup_empty, decide_False, Hv by apply not_elem_of_empty.
Qed.

End cache.

(** *** A storage for the examples

    A derived class that keeps the records in a dictionary, reads the
    mapping it is handed without writing to it, and whose [commit] does
    nothing. *)

Module DemoBackend.

Abbreviation store := (gmap string record).

(** What a mapping shows through its interface. *)
Definition visible (d : mapping) : record :=
  match d with
  | Plain values => values
  | Protected d => new d ∪ filter (λ kv, kv.1 ∉ blacklist d) (orig d)
  end.

Definition getitem_impl (c : string) (b : store)
  : result (exn string) record * store :=
  (match b !! c with Some r => Ok r | None => Raise (KeyError c) end, b).

Definition setitem_impl (c : string) (d : mapping) (b : store)
  : result (exn string) unit * list dict_op * store :=
  (Ok (), [], <[c := visible d]> b).

Definition delitem_impl (c : string) (b : store)
  : result (exn string) unit * store :=
  match b !! c with
  | Some _ => (Ok (), delete c b)
  | None => (Raise (KeyError c), b)
  end.

Definition commit_impl (b : store) : result (exn string) unit * store :=
  (Ok (), b).

Abbreviation set := (setitem setitem_impl commit_impl).
Abbreviation get := (getitem getitem_impl commit_impl).
Abbreviation del := (delitem delitem_impl commit_impl).

(** A cache that queues updates, with nothing stored or pending. *)
Definition fresh (ro cleanse serialize : bool) (rate : Z)
  : cache (cpv := string) (B := store) :=
  {| readonly := ro; autocommits := false; cleanse_keys := cleanse;
     serialize_eclasses := serialize; sync_rate := rate; updates := 0;
     backend := ∅; calls := [] |}.

Definition depend : record := {["DEPEND" := VStr "dev-libs/openssl"]}.

Definition no_eclasses : record :=
  <["_eclasses_" := VEclasses ∅]> depend.

Definition st0 : cache := fresh false false true 2.
Definition st1 : cache := (set "dev-lang/python-2.5" depend st0).1.2.
Definition st2 : cache := (set "dev-lang/python-2.6" depend st1).1.2.
Definition st3 : cache := (set "dev-lang/python-2.7" depend st2).1.2.

End DemoBackend.

Lemma three_sets_commit_once_witness :
  (commits DemoBackend.st1 = commits DemoBackend.st0 ∧
   commits DemoBackend.st2 = commits DemoBackend.st0 ∧
   commits DemoBackend.st3 = S (commits DemoBackend.st0) ∧
   updates DemoBackend.st3 = 0%Z) ∧
  ∀ st c, sync_rate st = 2%Z → updates st = 1%Z →
    commits (DemoBackend.get c st).2 = commits st ∧
    updates (DemoBackend.get c st).2 = 1%Z.
Proof.
  exact (three_sets_commit_once DemoBackend.getitem_impl
           DemoBackend.setitem_impl DemoBackend.commit_impl
           "dev-lang/python-2.5" DemoBackend.depend
           "dev-lang/python-2.6" DemoBackend.depend
           "dev-lang/python-2.7" DemoBackend.depend
           DemoBackend.st0 eq_refl eq_refl eq_refl eq_refl eq_refl eq_refl).
Defined.

(** After a fourth [__setitem__] one write is pending, and [__getitem__]
    leaves the count of [commit] calls at one. *)
Example fourth_set_then_get :
  let st4 := (DemoBackend.set "dev-lang/python-3.0" DemoBackend.depend
                DemoBackend.st3).1.2 in
  updates st4 = 1%Z ∧
  (DemoBackend.get "dev-lang/python-2.7" st4).1 = Ok DemoBackend.depend ∧
  commits (DemoBackend.get "dev-lang/python-2.7" st4).2 = 1.
Proof. by vm_compute. Qed.

Lemma readonly_rejects_writes_witness :
  (∀ c values,
     DemoBackend.set c values (DemoBackend.fresh true false true 0)
     = (Raise ReadOnly, DemoBackend.fresh true false true 0, values)) ∧
  (∀ c, DemoBackend.del c (DemoBackend.fresh true false true 0)
        = (Raise ReadOnly, DemoBackend.fresh true false true 0)).
Proof.
  exact (readonly_rejects_writes DemoBackend.setitem_impl
           DemoBackend.delitem_impl DemoBackend.commit_impl
           (DemoBackend.fresh true false true 0) eq_refl).
Defined.

Lemma setitem_keeps_record_witness :
  (DemoBackend.set "dev-lang/python-2.7"
     (<["_eclasses_" := VEclasses {["eutils" := ("/usr/portage/eclass", 7%Z)]}]>
        DemoBackend.depend)
     (DemoBackend.fresh false true true 0)).2
  = <["_eclasses_" := VEclasses {["eutils" := ("/usr/portage/eclass", 7%Z)]}]>
      DemoBackend.depend ∧
  (DemoBackend.set "dev-lang/python-2.7" DemoBackend.depend
     (DemoBackend.fresh false false true 0)).2 = DemoBackend.depend.
Proof.
  split.
  - exact (proj1 (setitem_keeps_record DemoBackend.setitem_impl
                    DemoBackend.commit_impl "dev-lang/python-2.7" _
                    (DemoBackend.fresh false true true 0)) eq_refl).
  - exact (proj2 (proj2 (setitem_keeps_record DemoBackend.setitem_impl
                           DemoBackend.commit_impl "dev-lang/python-2.7"
                           DemoBackend.depend
                           (DemoBackend.fresh false false true 0))
                    eq_refl eq_refl)).
Defined.

(** A derived class whose [_setitem] takes [DEPEND] out of the mapping it is
    handed as it stores the record ([values.pop("DEPEND")]). *)
Definition setitem_popping (c : string) (d : mapping) (b : DemoBackend.store)
  : result (exn string) unit * list dict_op * DemoBackend.store :=
  (Ok (), [DelItem "DEPEND"], <[c := DemoBackend.visible d]> b).

(** C9 fails as stated: with the flags at the values the class gives them
    ([cleanse_keys] false, [serialize_eclasses] true) and a record without
    [_eclasses_], the derived class is handed the caller's own dictionary,
    and a [_setitem] that deletes a key of its argument leaves the caller's
    record without it. *)
Lemma setitem_changes_record :
  readonly (DemoBackend.fresh false false true 0) = false ∧
  (setitem setitem_popping DemoBackend.commit_impl "dev-lang/python-2.7"
     DemoBackend.depend (DemoBackend.fresh false false true 0)).1.1 = Ok () ∧
  (setitem setitem_popping DemoBackend.commit_impl "dev-lang/python-2.7"
     DemoBackend.depend (DemoBackend.fresh false false true 0)).2 = ∅ ∧
  DemoBackend.depend ≠ ∅.
Proof. split_and!; by vm_compute. Qed.

Lemma setitem_empty_eclasses_KeyError_witness :
  DemoBackend.set "dev-lang/python-2.7" DemoBackend.no_eclasses
    (DemoBackend.fresh false true true 0)
  = (Raise (KeyError "_eclasses_"), DemoBackend.fresh false true true 0,
     DemoBackend.no_eclasses).
Proof.
  exact (setitem_empty_eclasses_KeyError DemoBackend.setitem_impl
           DemoBackend.commit_impl "dev-lang/python-2.7"
           DemoBackend.no_eclasses (VEclasses ∅)
           (DemoBackend.fresh false true true 0)
           eq_refl eq_refl eq_refl eq_refl eq_refl).
Defined.

(** The same record is stored when the keys are not cleansed. *)
Example setitem_empty_eclasses_uncleansed :
  (DemoBackend.set "dev-lang/python-2.7" DemoBackend.no_eclasses
     (DemoBackend.fresh false false true 0)).1.1 = Ok ().
Proof. by vm_compute. Qed.


(** *** The further properties on the example storage *)

Module DemoRuns.

Definition five_sets : list (string * record) :=
  [("dev-lang/python-2.4", DemoBackend.depend);
   ("dev-lang/python-2.5", DemoBackend.depend);
   ("dev-lang/python-2.6", DemoBackend.depend);
   ("dev-lang/python-2.7", DemoBackend.depend);
   ("dev-lang/python-3.0", DemoBackend.depend)].

Abbreviation sets :=
  (setitems DemoBackend.setitem_impl DemoBackend.commit_impl).

(** The cache after the sets of [l], or the cache itself if one raises. *)
Definition after_sets (l : list (string * record))
    (st : cache (cpv := string) (B := DemoBackend.store)) : cache :=
  default st (sets l st).

Definition eutils : eclass_map := {["eutils" := ("/usr/portage/eclass", 7%Z)]}.

(** A record with an empty value and an eclass dictionary. *)
Definition full_record : record :=
  <["_eclasses_" := VEclasses eutils]>
    (<["IUSE" := VStr ""]> DemoBackend.depend).


End DemoRuns.

Lemma pending_bounded_witness :
  (∀ r st', DemoBackend.get "dev-lang/python-2.7" DemoBackend.st2 = (Ok r, st') →
     (updates st' ≤ sync_rate st')%Z ∧ sync_rate st' = sync_rate DemoBackend.st2) ∧
  (∀ st', DemoBackend.del "dev-lang/python-2.7" DemoBackend.st2 = (Ok (), st') →
     (updates st' ≤ sync_rate st')%Z ∧ sync_rate st' = sync_rate DemoBackend.st2) ∧
  (autocommits DemoBackend.st2 = false →
   ∀ st' rec,
     DemoBackend.set "dev-lang/python-2.7" DemoBackend.depend DemoBackend.st2
     = (Ok (), st', rec) →
     (updates st' ≤ sync_rate st')%Z ∧ sync_rate st' = sync_rate DemoBackend.st2).
Proof.
  refine (pending_bounded DemoBackend.getitem_impl DemoBackend.setitem_impl
            DemoBackend.delitem_impl DemoBackend.commit_impl
            "dev-lang/python-2.7" DemoBackend.depend DemoBackend.st2 _).
  by vm_compute.
Defined.

Lemma setitems_commits_witness :
  updates (DemoRuns.after_sets DemoRuns.five_sets DemoBackend.st0) = 2%Z ∧
  Z.of_nat (commits (DemoRuns.after_sets DemoRuns.five_sets DemoBackend.st0))
  = 1%Z.
Proof.
  refine (setitems_commits DemoBackend.setitem_impl DemoBackend.commit_impl
            DemoRuns.five_sets DemoBackend.st0
            (DemoRuns.after_sets DemoRuns.five_sets DemoBackend.st0) _ _ _).
  - done.
  - by vm_compute.
  - by vm_compute.
Defined.

Lemma new_cache_commits_every_set_witness :
  commits (DemoRuns.after_sets DemoRuns.five_sets
             (new_cache false false false true ∅)) = 5 ∧
  updates (DemoRuns.after_sets DemoRuns.five_sets
             (new_cache false false false true ∅)) = 0%Z.
Proof.
  refine (new_cache_commits_every_set DemoBackend.setitem_impl
            DemoBackend.commit_impl DemoRuns.five_sets false false true ∅
            (DemoRuns.after_sets DemoRuns.five_sets
               (new_cache false false false true ∅)) _).
  by vm_compute.
Defined.

Lemma sync_zero_then_get_witness :
  updates (sync DemoBackend.commit_impl 0 DemoBackend.st2).2
  = updates DemoBackend.st2 ∧
  sync_rate (sync DemoBackend.commit_impl 0 DemoBackend.st2).2 = 0%Z ∧
  commits (sync DemoBackend.commit_impl 0 DemoBackend.st2).2
  = S (commits DemoBackend.st2) ∧
  commits (DemoBackend.get "dev-lang/python-2.5"
             (sync DemoBackend.commit_impl 0 DemoBackend.st2).2).2
  = S (S (commits DemoBackend.st2)) ∧
  updates (DemoBackend.get "dev-lang/python-2.5"
             (sync DemoBackend.commit_impl 0 DemoBackend.st2).2).2 = 0%Z.
Proof.
  refine (sync_zero_then_get DemoBackend.getitem_impl DemoBackend.commit_impl
            "dev-lang/python-2.5" DemoBackend.st2 _ eq_refl eq_refl).
  by vm_compute.
Defined.


Lemma prepare_stores_witness :
  mapping_lookup (cpv := string) "IUSE"
    (prepare (cpv := string) (DemoBackend.fresh false true true 0)
       DemoRuns.full_record).2 = None ∧
  mapping_lookup (cpv := string) "_eclasses_"
    (prepare (cpv := string) (DemoBackend.fresh false true true 0)
       DemoRuns.full_record).2
  = Some (VStr (deconstruct_eclasses DemoRuns.eutils)) ∧
  mapping_lookup (cpv := string) "DEPEND"
    (prepare (cpv := string) (DemoBackend.fresh false true true 0)
       DemoRuns.full_record).2 = Some (VStr "dev-libs/openssl").
Proof.
  pose proof (prepare_stores (DemoBackend.fresh false true true 0)
                DemoRuns.full_record
                (prepare (cpv := string) (DemoBackend.fresh false true true 0)
                   DemoRuns.full_record).2) as Hstores.
  split_and!; (etrans; [apply Hstores|]); by vm_compute.
Defined.

Lemma setitem_string_eclasses_witness :
  DemoBackend.set "dev-lang/python-2.7"
    (<["_eclasses_" := VStr (deconstruct_eclasses DemoRuns.eutils)]>
       DemoBackend.depend)
    (DemoBackend.fresh false false true 0)
  = (Raise AttributeError, DemoBackend.fresh false false true 0,
     <["_eclasses_" := VStr (deconstruct_eclasses DemoRuns.eutils)]>
       DemoBackend.depend).
Proof.
  exact (setitem_string_eclasses DemoBackend.setitem_impl
           DemoBackend.commit_impl "dev-lang/python-2.7"
           (<["_eclasses_" := VStr (deconstruct_eclasses DemoRuns.eutils)]>
              DemoBackend.depend)
           (deconstruct_eclasses DemoRuns.eutils)
           (DemoBackend.fresh false false true 0)
           eq_refl eq_refl eq_refl (or_introl eq_refl)).
Defined.

End Cache.
